(** * hubply/cmd: the build-and-reload harness

    A shallow embedding of [harness/build.go] (alias resolution, the
    fetch-and-retry build loop, version detection, diagnostic parsing) and of
    the harness proper ([ServeHTTP], [Refresh]), with the properties the
    design document states about them. *)

From Stdlib Require Import ZArith Ascii String List Lia.
From stdpp Require Import base option list strings gmap fin_maps pretty.

Local Open Scope string_scope.
Local Open Scope list_scope.
Local Open Scope nat_scope.

(* Concatenation unfolds on a constructor, as list append does. *)
#[local] Arguments String.append !_ _ / : simpl nomatch.

(** * Strings

    Go strings and byte slices are modelled as [string]; [+:+] is
    concatenation. *)

(** [fmt.Sprintf("%d", i)] for a non-negative [i]: stdpp's decimal printer. *)
Definition itoa (i : nat) : string := pretty i.

(** * The analyzer's output, as far as alias resolution reads it

    [SourceInfo], [TypeInfo], [MethodSpec] and [MethodArg] are declared in the
    analyzer; [calcImportAliases] reads the fields below. [ControllerSpecs]
    and [TestSuites] stand for the results of the accessor methods of the same
    names. *)

Record TypeExpr := { PkgName : string }.

Record MethodArg := {
  arg_ImportPath : string;
  arg_TypeExpr : TypeExpr
}.

Record MethodSpec := { Args : list MethodArg }.

Record TypeInfo := {
  ImportPath : string;
  PackageName : string;
  MethodSpecs : list MethodSpec
}.

Record SourceInfo := {
  ControllerSpecs : list TypeInfo;
  TestSuites : list TypeInfo;
  InitImportPaths : list string
}.

(** * Alias resolution ([calcImportAliases] and its helpers) *)

(** [containsValue]: some entry of the map has the value [val]. *)
Definition containsValue (m : gmap string string) (val : string) : bool :=
  existsb (λ kv, String.eqb kv.2 val) (map_to_list m).

(** The loop of [makePackageAlias], entered with the candidate [alias] and the
    next suffix [i]. [None] would mean the fuel ran out. The counter [i] is a
    Go [int]; it never exceeds the number of entries of the map
    ([makePackageAlias_loop_spec]), so it is a [nat] here. *)
Fixpoint makePackageAlias_loop (fuel : nat) (aliases : gmap string string)
    (pkgName : string) (i : nat) (alias : string) : option string :=
  if containsValue aliases alias then
    match fuel with
    | O => None
    | S fuel' =>
        makePackageAlias_loop fuel' aliases pkgName (S i) (pkgName +:+ itoa i)
    end
  else Some alias.

(** One more candidate than the map has entries always suffices
    ([makePackageAlias_loop_returns]); the default is never used. *)
Definition makePackageAlias (aliases : gmap string string) (pkgName : string)
    : string :=
  default pkgName (makePackageAlias_loop (size aliases) aliases pkgName 0 pkgName).

Definition addAlias (aliases : gmap string string) (importPath pkgName : string)
    : gmap string string :=
  match aliases !! importPath with
  | Some _ => aliases
  | None => <[importPath := makePackageAlias aliases pkgName]> aliases
  end.

(** The innermost loop: the arguments of one method. *)
Definition addArgAliases (aliases : gmap string string) (args : list MethodArg)
    : gmap string string :=
  foldl (λ m methArg,
           if String.eqb (arg_ImportPath methArg) "" then m
           else addAlias m (arg_ImportPath methArg)
                           (PkgName (arg_TypeExpr methArg)))
        aliases args.

(** The body of the loop over the specs of one array. *)
Definition addSpecAliases (aliases : gmap string string) (spec : TypeInfo)
    : gmap string string :=
  foldl (λ m methSpec, addArgAliases m (Args methSpec))
        (addAlias aliases (ImportPath spec) (PackageName spec))
        (MethodSpecs spec).

(** The last loop: init imports that have no alias yet get ["_"]. *)
Definition addInitImports (aliases : gmap string string) (paths : list string)
    : gmap string string :=
  foldl (λ m importPath,
           match m !! importPath with
           | Some _ => m
           | None => <[importPath := "_"]> m
           end)
        aliases paths.

Definition typeAliases (src : SourceInfo) : gmap string string :=
  foldl (λ m specs, foldl addSpecAliases m specs) ∅
        [ControllerSpecs src; TestSuites src].

Definition calcImportAliases (src : SourceInfo) : gmap string string :=
  addInitImports (typeAliases src) (InitImportPaths src).

(** The candidates [makePackageAlias] tries, in order: the package name, then
    the name followed by 0, 1, 2, ... *)
Definition aliasCandidate (pkgName : string) (k : nat) : string :=
  match k with
  | O => pkgName
  | S j => pkgName +:+ itoa j
  end.

(** The requests [calcImportAliases] passes to [addAlias], in program order. *)
Definition argRequests (args : list MethodArg) : list (string * string) :=
  omap (λ methArg,
          if String.eqb (arg_ImportPath methArg) "" then None
          else Some (arg_ImportPath methArg, PkgName (arg_TypeExpr methArg)))
       args.

Definition specRequests (spec : TypeInfo) : list (string * string) :=
  (ImportPath spec, PackageName spec)
    :: concat (map (λ methSpec, argRequests (Args methSpec)) (MethodSpecs spec)).

Definition aliasRequests (src : SourceInfo) : list (string * string) :=
  concat (map specRequests (ControllerSpecs src))
    ++ concat (map specRequests (TestSuites src)).

Definition addAliases (aliases : gmap string string)
    (reqs : list (string * string)) : gmap string string :=
  foldl (λ m req, addAlias m req.1 req.2) aliases reqs.

(** No two import paths of the table share an alias. *)
Definition aliasesDistinct (m : gmap string string) : Prop :=
  ∀ p q a, m !! p = Some a → m !! q = Some a → p = q.

(** * Regular expressions

    The three patterns of [build.go] use literals, character classes, repeated
    character classes (greedy or lazy), an optional group, capture groups and
    the multi-line anchors [^] and [$]. [Regexp] is a backtracking matcher for
    that fragment with Go's leftmost-first semantics: the match starts at the
    leftmost position where one exists and is the one a backtracking search
    reaches first. Classes are predicates on bytes; the classes used here are
    decided by ASCII bytes only, so matching bytes agrees with matching
    runes. *)

Module Regexp.

Inductive regexp : Type :=
| Lit (l : string)                              (* literal text *)
| Class (p : ascii → bool)                      (* one character of a class *)
| Rep (greedy : bool) (min : nat) (p : ascii → bool)
                                                (* a class, [min] times or more *)
| Cat (r1 r2 : regexp)
| Opt (r : regexp)                              (* [r?], preferring [r] *)
| Group (i : nat) (r : regexp)                  (* capture group number [i] *)
| Bol                                           (* [(?m)^] *)
| Eol.                                          (* [(?m)$] *)

(** Submatches by group number; a group that took no part is [None] (Go's
    [nil] slice). *)
Definition captures : Type := list (option string).

Definition isNewline (a : ascii) : bool := Ascii.eqb a "010".

(** [(?m)$] holds at the end of the text and before a newline. *)
Definition atEol (s : string) : bool :=
  match s with
  | "" => true
  | String a _ => isNewline a
  end.

(** The text [s] without its suffix [rest]: what was consumed from [s]. *)
Fixpoint take (n : nat) (s : string) : string :=
  match n, s with
  | S n', String a s' => String a (take n' s')
  | _, _ => ""
  end.

Definition consumed (s rest : string) : string :=
  take (String.length s - String.length rest) s.

(** [stripPrefix l bol s]: [s] after the literal [l], with the new
    line-start flag. *)
Fixpoint stripPrefix (l : string) (bol : bool) (s : string) : option (bool * string) :=
  match l with
  | "" => Some (bol, s)
  | String c l' =>
      match s with
      | String a s' => if Ascii.eqb a c then stripPrefix l' (isNewline a) s' else None
      | "" => None
      end
  end.

(** A continuation receives the line-start flag, the rest of the text and the
    captures so far; [None] asks the matcher to backtrack. *)
Definition cont : Type := bool → string → captures → option captures.

(** [p{min,}], longest first. *)
Fixpoint repGreedy (p : ascii → bool) (min : nat) (bol : bool) (s : string)
    (c : captures) (k : cont) : option captures :=
  let stop := match min with O => k bol s c | S _ => None end in
  match s with
  | String a s' =>
      if p a then
        match repGreedy p (pred min) (isNewline a) s' c k with
        | Some res => Some res
        | None => stop
        end
      else stop
  | "" => stop
  end.

(** [p{min,}?], shortest first. *)
Fixpoint repLazy (p : ascii → bool) (min : nat) (bol : bool) (s : string)
    (c : captures) (k : cont) : option captures :=
  let more :=
    match s with
    | String a s' => if p a then repLazy p (pred min) (isNewline a) s' c k else None
    | "" => None
    end in
  match min with
  | O => match k bol s c with
         | Some res => Some res
         | None => more
         end
  | S _ => more
  end.

Fixpoint exec (r : regexp) (bol : bool) (s : string) (c : captures) (k : cont)
    : option captures :=
  match r with
  | Lit l =>
      match stripPrefix l bol s with
      | Some (bol', s') => k bol' s' c
      | None => None
      end
  | Class p =>
      match s with
      | String a s' => if p a then k (isNewline a) s' c else None
      | "" => None
      end
  | Rep true min p => repGreedy p min bol s c k
  | Rep false min p => repLazy p min bol s c k
  | Cat r1 r2 => exec r1 bol s c (λ bol' s' c', exec r2 bol' s' c' k)
  | Opt r' =>
      match exec r' bol s c k with
      | Some res => Some res
      | None => k bol s c
      end
  | Group i r' =>
      exec r' bol s c (λ bol' s' c', k bol' s' (<[i := Some (consumed s s')]> c'))
  | Bol => if bol then k bol s c else None
  | Eol => if atEol s then k bol s c else None
  end.

(** The number of capture groups of a pattern. *)
Fixpoint numSubexp (r : regexp) : nat :=
  match r with
  | Cat r1 r2 => numSubexp r1 `max` numSubexp r2
  | Opt r' => numSubexp r'
  | Group i r' => i `max` numSubexp r'
  | _ => 0
  end.

(** A match of the whole pattern (group 0) starting here. *)
Definition matchHere (r : regexp) (bol : bool) (s : string) : option captures :=
  exec (Group 0 r) bol s (replicate (S (numSubexp r)) None) (λ _ _ c, Some c).

(** The leftmost match in [s], trying each start position in turn. *)
Fixpoint findFrom (r : regexp) (bol : bool) (s : string) : option captures :=
  match matchHere r bol s with
  | Some c => Some c
  | None =>
      match s with
      | String a s' => findFrom r (isNewline a) s'
      | "" => None
      end
  end.

(** [FindStringSubmatch] and [FindSubmatch]: [None] is Go's [nil]. *)
Definition FindSubmatch (r : regexp) (s : string) : option captures :=
  findFrom r true s.

(** [string(m[i])] for a submatch slice [m]. *)
Definition submatch (m : captures) (i : nat) : string :=
  default "" (mjoin (m !! i)).

(** Character classes. *)
Definition isDigit (a : ascii) : bool :=
  (48 <=? nat_of_ascii a) && (nat_of_ascii a <=? 57).

(** [\s]: tab, newline, form feed, carriage return, space. *)
Definition isSpace (a : ascii) : bool :=
  match a with
  | "009" | "010" | "012" | "013" | " " => true
  | _ => false
  end%char.

(** [.] without the [s] flag: anything but a newline. *)
Definition isDot (a : ascii) : bool := negb (isNewline a).

Definition noneOf (l : list ascii) (a : ascii) : bool :=
  negb (existsb (Ascii.eqb a) l).

End Regexp.

(** ** The patterns of [build.go] *)

(** The double quote, written by its code to keep string literals plain. *)
Definition dquote : ascii := "034"%char.

(** The pattern [cannot find package Q([^Q]+)Q], with Q the double quote. *)
Definition importErrorPattern : Regexp.regexp :=
  Regexp.Cat (Regexp.Lit ("cannot find package " +:+ String dquote ""))
    (Regexp.Cat (Regexp.Group 1 (Regexp.Rep true 1 (Regexp.noneOf [dquote])))
                (Regexp.Lit (String dquote ""))).

Declare Scope regexp_scope.
Delimit Scope regexp_scope with re.
Infix "⋅" := Regexp.Cat (at level 60, right associativity) : regexp_scope.

(** The first pattern of [newCompileError], in multi-line mode: at a line
    start, group 1 is one or more characters other than a colon and a hash
    sign, then a colon, group 2 is one or more digits, then a colon, the
    optional group 3 is one or more digits and a colon, then a space, group 4
    is the rest of the line, up to the line end. *)
Definition errorPattern : Regexp.regexp :=
  (Regexp.Bol
   ⋅ Regexp.Group 1 (Regexp.Rep true 1 (Regexp.noneOf [":"; "#"]%char))
   ⋅ Regexp.Lit ":"
   ⋅ Regexp.Group 2 (Regexp.Rep true 1 Regexp.isDigit)
   ⋅ Regexp.Lit ":"
   ⋅ Regexp.Opt (Regexp.Group 3 (Regexp.Rep true 1 Regexp.isDigit ⋅ Regexp.Lit ":"))
   ⋅ Regexp.Lit " "
   ⋅ Regexp.Group 4 (Regexp.Rep true 0 Regexp.isDot)
   ⋅ Regexp.Eol)%re.

(** The second pattern of [newCompileError], in multi-line mode: at a line
    start, group 1 is the shortest run of characters of the line, then a
    colon, group 2 is one or more digits, then a colon and one white-space
    character, group 3 is the shortest run of characters up to a line end. *)
Definition errorPatternFallback : Regexp.regexp :=
  (Regexp.Bol
   ⋅ Regexp.Group 1 (Regexp.Rep false 0 Regexp.isDot)
   ⋅ Regexp.Lit ":"
   ⋅ Regexp.Group 2 (Regexp.Rep true 1 Regexp.isDigit)
   ⋅ Regexp.Lit ":"
   ⋅ Regexp.Class Regexp.isSpace
   ⋅ Regexp.Group 3 (Regexp.Rep false 0 Regexp.isDot)
   ⋅ Regexp.Eol)%re.

(** * Errors, outcomes and the environment *)

(** [gospf.Error], the structured compile error. *)
Record Error := {
  SourceType : string;
  Title : string;
  Path : string;
  Description : string;
  Line : Z;
  SourceLines : list string;
  MetaError : string;
  Link : string
}.

(** How a call ends: it returns, the process exits ([Fatalf], [Fatalln]), or
    it panics. *)
Inductive outcome (A : Type) : Type :=
| Returns (a : A)
| Exits
| Panics.
Arguments Returns {A} a.
Arguments Exits {A}.
Arguments Panics {A}.

(** The result of [Cmd.CombinedOutput] and [Cmd.Output]: the bytes written
    and whether the error is non-nil. *)
Record CmdResult := {
  output : string;
  failed : bool
}.

(** Errors of [os.Stat], as far as [os.IsNotExist] tells them apart. *)
Inductive OsError := ErrNotExist | ErrPermission | ErrOther.

Definition IsNotExist (err : OsError) : bool :=
  match err with
  | ErrNotExist => true
  | _ => false
  end.

(** [os.Stat] returns file information (here: whether it is a directory) and a
    nil error, or nil information and an error. *)
Inductive StatResult :=
| StatInfo (isDir : bool)
| StatError (err : OsError).

(** What [getAppVersion] reads from its environment. *)
Record VcsEnv := {
  APP_VERSION : string;            (* os.Getenv("APP_VERSION") *)
  lookPathGit : option string;     (* exec.LookPath("git"); None: an error *)
  statGitDir : StatResult;         (* os.Stat(path.Join(BasePath, ".git")) *)
  gitDescribe : CmdResult          (* git describe --always --dirty *)
}.

(** What [newCompileError] reads besides the build output. *)
Record ErrorEnv := {
  filepathAbs : string → string;                  (* filepath.Abs *)
  ReadLines : string → list string + string;      (* gospf.ReadLines: lines, or
                                                     the error's text *)
  errorLink : string                              (* Config "error.link", or "" *)
}.

(** Everything [Build] reads from outside. The commands it runs in its loop
    answer by iteration: [goBuild i] is what the [i]-th run of [go build]
    returns, [goGet i] what the [go get] of that iteration returns. *)
Record BuildEnv := {
  processSource : SourceInfo + Error;   (* ProcessSource(gospf.CodePaths) *)
  dbImport : option string;             (* Config.String("db.import") *)
  genSourceOk : bool;                   (* false: genSource ends in Fatalf *)
  buildTags : string;                   (* Config "build.tags", or "" *)
  lookPathGo : option string;           (* exec.LookPath("go") *)
  importFound : bool;                   (* build.Default.Import succeeded *)
  gospfImportPath : string;             (* gospf.ImportPath *)
  binPath : string;    (* path.Join(pkg.BinDir, "gospf.d", ImportPath, Base) *)
  mainPath : string;   (* path.Join(ImportPath, "app", "tmp") *)
  runtimeGOOS : string;                 (* runtime.GOOS *)
  envGOOS : string;                     (* os.Getenv("GOOS") *)
  vcsEnv : nat → VcsEnv;
  goBuild : nat → CmdResult;
  goGet : nat → CmdResult;
  errorEnv : ErrorEnv
}.

(** * The supervised process

    [App] and its methods live in the supervisor, outside the files at hand. *)

(** Modelled from the spec: [App] is missing; the design document describes it
    as a handle to one supervised child process: binary path, assigned port,
    underlying process handle. The handle is the number of the child
    process, [None] before a start. *)
Record App := {
  BinaryPath : string;
  Port : Z;
  process : option nat
}.

(** Modelled from the spec: [NewApp] is missing; on success [Build] returns
    an [App] bound to the binary path. *)
Definition NewApp (binPath : string) : App :=
  {| BinaryPath := binPath; Port := 0; process := None |}.

(** The child processes of the harness that are alive, and the number the
    next child will get. *)
Record Procs := {
  running : gset nat;
  nextPid : nat
}.

(** Modelled from the spec: [App.Kill] is missing; it terminates the process
    and is idempotent (safe on a dead process or on none). *)
Definition Kill (a : App) (ps : Procs) : Procs :=
  match process a with
  | Some pid => {| running := running ps ∖ {[pid]}; nextPid := nextPid ps |}
  | None => ps
  end.

(** Modelled from the spec: [App.Cmd().Start] is missing; it launches the
    binary and records the process handle, or fails ([startError] is the
    error's text) and leaves no child behind. *)
Definition Start (a : App) (startError : option string) (ps : Procs)
    : App * Procs * option string :=
  match startError with
  | None =>
      ({| BinaryPath := BinaryPath a; Port := Port a;
          process := Some (nextPid ps) |},
       {| running := {[nextPid ps]} ∪ running ps; nextPid := S (nextPid ps) |},
       None)
  | Some msg => (a, ps, Some msg)
  end.

(** * Library functions used by [build.go] *)

(** ** UTF-8 and white space

    Go strings are bytes; the functions of [strings] and [unicode/utf8] read
    them as UTF-8, rune by rune. A rune is a code point, here a number. *)

Definition RuneError : N := 0xFFFD.   (* U+FFFD, for bytes that encode no rune *)
Definition RuneSelf : N := 0x80.      (* bytes below are runes of one byte *)
Definition UTFMax : nat := 4.

Definition byteOf (a : ascii) : N := N_of_ascii a.

Definition between (lo hi : N) (a : ascii) : bool :=
  ((lo <=? byteOf a) && (byteOf a <=? hi))%N.

(** The text after its first [n] bytes. *)
Fixpoint dropBytes (n : nat) (s : string) : string :=
  match n, s with
  | S n', String _ s' => dropBytes n' s'
  | _, _ => s
  end.

(** The tables [first] and [acceptRanges] of [unicode/utf8]: the width a lead
    byte announces and the range of the byte after it; width 1 for a byte
    that starts no encoding. *)
Definition leadByte (a0 : ascii) : nat * N * N :=
  let s0 := byteOf a0 in
  (if between 0xC2 0xDF a0 then (2%nat, 0x80, 0xBF)
   else if s0 =? 0xE0 then (3%nat, 0xA0, 0xBF)
   else if between 0xE1 0xEC a0 then (3%nat, 0x80, 0xBF)
   else if s0 =? 0xED then (3%nat, 0x80, 0x9F)
   else if between 0xEE 0xEF a0 then (3%nat, 0x80, 0xBF)
   else if s0 =? 0xF0 then (4%nat, 0x90, 0xBF)
   else if between 0xF1 0xF3 a0 then (4%nat, 0x80, 0xBF)
   else if s0 =? 0xF4 then (4%nat, 0x80, 0x8F)
   else (1%nat, 0, 0))%N.

(** [utf8.DecodeRuneInString]: the first rune of the text and its width in
    bytes; [(RuneError, 1)] when the text starts with no valid encoding,
    [(RuneError, 0)] when it is empty. The lead byte announces the width and
    the range of the second byte (the tables [first] and [acceptRanges]);
    encodings that are too long, surrogates and runes beyond U+10FFFF are
    not valid. *)
Definition DecodeRuneInString (s : string) : N * nat :=
  match s with
  | "" => (RuneError, 0)
  | String a0 s1 =>
      let s0 := byteOf a0 in
      if (s0 <? RuneSelf)%N then (s0, 1)
      else
        let '(sz, lo, hi) := leadByte a0 in
        if sz =? 1 then (RuneError, 1)
        else if String.length s <? sz then (RuneError, 1)
        else
          match s1 with
          | String a1 s2 =>
              if negb (between lo hi a1) then (RuneError, 1)
              else if sz <=? 2
              then (N.lor (N.shiftl (N.land s0 0x1F) 6)
                          (N.land (byteOf a1) 0x3F), 2)
              else
                match s2 with
                | String a2 s3 =>
                    if negb (between 0x80 0xBF a2) then (RuneError, 1)
                    else if sz <=? 3
                    then (N.lor (N.shiftl (N.land s0 0x0F) 12)
                            (N.lor (N.shiftl (N.land (byteOf a1) 0x3F) 6)
                                   (N.land (byteOf a2) 0x3F)), 3)
                    else
                      match s3 with
                      | String a3 _ =>
                          if negb (between 0x80 0xBF a3) then (RuneError, 1)
                          else
                            (N.lor (N.shiftl (N.land s0 0x07) 18)
                               (N.lor (N.shiftl (N.land (byteOf a1) 0x3F) 12)
                                  (N.lor (N.shiftl (N.land (byteOf a2) 0x3F) 6)
                                         (N.land (byteOf a3) 0x3F))), 4)
                      | "" => (RuneError, 1)
                      end
                | "" => (RuneError, 1)
                end
          | "" => (RuneError, 1)
          end
  end.

(** [utf8.RuneStart]: the byte is not a continuation byte. *)
Definition RuneStart (a : ascii) : bool :=
  negb (N.land (byteOf a) 0xC0 =? 0x80)%N.

(** The byte of the text at an index. *)
Definition byteAt (s : string) (i : Z) : ascii :=
  default "000"%char (String.get (Z.to_nat i) s).

(** The loop of [DecodeLastRuneInString]: from [start] down to [lim], stop at
    a byte that can start a rune. It ends with that index, or with
    [lim - 1]. *)
Fixpoint lastRuneStart (n : nat) (s : string) (start lim : Z) : Z :=
  match n with
  | O => start
  | S n' =>
      if (start <? lim)%Z then start
      else if RuneStart (byteAt s start) then start
      else lastRuneStart n' s (start - 1) lim
  end.

(** [utf8.DecodeLastRuneInString]: the last rune of the text and its width;
    [(RuneError, 1)] when the text ends with no valid encoding. It looks back
    over at most [UTFMax] bytes. *)
Definition DecodeLastRuneInString (s : string) : N * nat :=
  let end_ := Z.of_nat (String.length s) in
  if (end_ =? 0)%Z then (RuneError, 0)
  else
    let r := byteOf (byteAt s (end_ - 1)) in
    if (r <? RuneSelf)%N then (r, 1)
    else
      let lim := Z.max 0 (end_ - Z.of_nat UTFMax) in
      let start := Z.max 0 (lastRuneStart UTFMax s (end_ - 2) lim) in
      let '(r, size) :=
        DecodeRuneInString
          (String.substring (Z.to_nat start) (Z.to_nat (end_ - start)) s) in
      if (start + Z.of_nat size =? end_)%Z then (r, size) else (RuneError, 1).

(** [unicode.IsSpace]: the white space of Latin-1, and beyond it the runes of
    the Unicode property White_Space. *)
Definition IsSpace (r : N) : bool :=
  (if r <=? 0xFF
   then (r =? 0x09) || (r =? 0x0A) || (r =? 0x0B) || (r =? 0x0C) || (r =? 0x0D)
        || (r =? 0x20) || (r =? 0x85) || (r =? 0xA0)
   else (r =? 0x1680) || ((0x2000 <=? r) && (r <=? 0x200A))
        || (r =? 0x2028) || (r =? 0x2029) || (r =? 0x202F) || (r =? 0x205F)
        || (r =? 0x3000))%N.

(** [strings.TrimLeftFunc]: the text from its first rune that does not satisfy
    [f]. Each turn drops one rune, so as many turns as the text has bytes are
    enough. *)
Fixpoint trimLeftLoop (turns : nat) (f : N → bool) (s : string) : string :=
  match turns with
  | O => s
  | S turns' =>
      match s with
      | "" => ""
      | _ =>
          let '(r, size) := DecodeRuneInString s in
          if f r then trimLeftLoop turns' f (dropBytes size s) else s
      end
  end.

Definition TrimLeftFunc (f : N → bool) (s : string) : string :=
  trimLeftLoop (String.length s) f s.

(** [strings.TrimRightFunc]: the text up to its last rune that does not
    satisfy [f], the runes being decoded from the end. *)
Fixpoint trimRightLoop (turns : nat) (f : N → bool) (s : string) : string :=
  match turns with
  | O => s
  | S turns' =>
      match s with
      | "" => ""
      | _ =>
          let '(r, size) := DecodeLastRuneInString s in
          if f r
          then trimRightLoop turns' f (Regexp.take (String.length s - size) s)
          else s
      end
  end.

Definition TrimRightFunc (f : N → bool) (s : string) : string :=
  trimRightLoop (String.length s) f s.

(** [strings.TrimSpace]: the text without leading and trailing white space, as
    Unicode defines it. *)
Definition TrimSpace (s : string) : string :=
  TrimRightFunc IsSpace (TrimLeftFunc IsSpace s).

Definition maxInt : Z := 2 ^ 63 - 1.
Definition minInt : Z := - 2 ^ 63.

Fixpoint digitsValue (acc : Z) (s : string) : option Z :=
  match s with
  | "" => Some acc
  | String a s' =>
      if Regexp.isDigit a
      then digitsValue (10 * acc + (Z.of_nat (nat_of_ascii a) - 48)) s'
      else None
  end.

(** [strconv.Atoi] with its error dropped, for a 64-bit [int]: 0 on a syntax
    error, the nearest bound when the number is out of range. *)
Definition Atoi (s : string) : Z :=
  let '(negative, body) :=
    match s with
    | String "-" s' => (true, s')
    | String "+" s' => (false, s')
    | _ => (false, s)
    end in
  match body with
  | "" => 0
  | _ =>
      match digitsValue 0 body with
      | None => 0
      | Some n => if negative then Z.max minInt (- n) else Z.min maxInt n
      end
  end%Z.

(** * [getAppVersion] *)

Definition getAppVersion (env : VcsEnv) : outcome string :=
  if negb (String.eqb (APP_VERSION env) "") then Returns (APP_VERSION env)
  else
    match lookPathGit env with
    | Some gitPath =>
        let '(info, err) :=
          match statGitDir env with
          | StatInfo isDir => (Some isDir, None)
          | StatError e => (None, Some e)
          end in
        (* (err != nil && os.IsNotExist(err)) || !info.IsDir() *)
        let notExist :=
          match err with
          | Some e => IsNotExist e
          | None => false
          end in
        if notExist then Returns ""
        else
          match info with
          | None => Panics                  (* info.IsDir() on nil information *)
          | Some isDir =>
              if negb isDir then Returns ""
              else if failed (gitDescribe env) then Returns ""
              else Returns ("git-" +:+ TrimSpace (output (gitDescribe env)))
          end
    | None => Returns ""
    end.

(** * [newCompileError] *)

(** Modelled from the spec: [Error.SetLink] is missing; the error carries an
    optional deep link template. *)
Definition SetLink (errorLink : string) (e : Error) : Error :=
  {| SourceType := SourceType e; Title := Title e; Path := Path e;
     Description := Description e; Line := Line e;
     SourceLines := SourceLines e; MetaError := MetaError e;
     Link := errorLink |}.

(** The error returned when neither pattern matches. *)
Definition genericCompileError : Error :=
  {| SourceType := "Go code"; Title := "Go Compilation Error"; Path := "";
     Description := "See console for build error."; Line := 0;
     SourceLines := []; MetaError := ""; Link := "" |}.

(** The part of [newCompileError] after the patterns: read the source of the
    offending file. *)
Definition locatedCompileError (env : ErrorEnv) (errorMatch : Regexp.captures)
    : Error :=
  let relFilename := Regexp.submatch errorMatch 1 in
  let absFilename := filepathAbs env relFilename in
  let line := Atoi (Regexp.submatch errorMatch 2) in
  let description := Regexp.submatch errorMatch 4 in
  let compileError :=
    {| SourceType := "Go code"; Title := "Go Compilation Error";
       Path := relFilename; Description := description; Line := line;
       SourceLines := []; MetaError := ""; Link := "" |} in
  let compileError :=
    if negb (String.eqb (errorLink env) "")
    then SetLink (errorLink env) compileError
    else compileError in
  match ReadLines env absFilename with
  | inr err =>
      {| SourceType := SourceType compileError; Title := Title compileError;
         Path := Path compileError; Description := Description compileError;
         Line := Line compileError; SourceLines := SourceLines compileError;
         MetaError := absFilename +:+ ": " +:+ err;
         Link := Link compileError |}
  | inl fileStr =>
      {| SourceType := SourceType compileError; Title := Title compileError;
         Path := Path compileError; Description := Description compileError;
         Line := Line compileError; SourceLines := fileStr;
         MetaError := MetaError compileError; Link := Link compileError |}
  end.

Definition newCompileError (env : ErrorEnv) (out : string) : Error :=
  match Regexp.FindSubmatch errorPattern out with
  | Some errorMatch => locatedCompileError env errorMatch
  | None =>
      match Regexp.FindSubmatch errorPatternFallback out with
      | None => genericCompileError
      | Some errorMatch =>
          (* errorMatch = append(errorMatch, errorMatch[3]) *)
          locatedCompileError env (errorMatch ++ [mjoin (errorMatch !! 3)])
      end
  end.

(** * [Build] *)

(** What [Build] does to the outside, in order. *)
Inductive Exec :=
| GenSource (dir filename : string) (importPaths : gmap string string)
| ExecGoBuild (flags : list string)
| ExecGoGet (pkgName : string).

Definition goos (env : BuildEnv) : string :=
  if negb (String.eqb (envGOOS env) "") then envGOOS env else runtimeGOOS env.

Definition binName (env : BuildEnv) : string :=
  if String.eqb (goos env) "windows" then binPath env +:+ ".exe"
  else binPath env.

Definition versionLinkerFlags (env : BuildEnv) (appVersion : string) : string :=
  "-X " +:+ gospfImportPath env +:+ "/app.APP_VERSION "
    +:+ String dquote (appVersion +:+ String dquote "").

Definition buildArgs (env : BuildEnv) (buildFlags : list string)
    (appVersion : string) : list string :=
  ["build"; "-ldflags"; versionLinkerFlags env appVersion;
   "-tags"; buildTags env; "-o"; binName env]
    ++ buildFlags ++ [mainPath env].

(** The packages [go get] was run for. *)
Definition fetched (tr : list Exec) : list string :=
  omap (λ e, match e with ExecGoGet pkgName => Some pkgName | _ => None end) tr.

(** The [go build] runs. *)
Definition builds (tr : list Exec) : nat :=
  length (omap (λ e, match e with ExecGoBuild flags => Some flags | _ => None end)
               tr).

(** The [for] loop of [Build], entered for the [i]-th time with the set
    [gotten]. [None]: the fuel ran out before the loop returned. *)
Fixpoint buildLoop (fuel : nat) (env : BuildEnv) (buildFlags : list string)
    (i : nat) (gotten : gset string)
    : option (list Exec * outcome (option App * option Error)) :=
  match fuel with
  | O => None
  | S fuel' =>
      match getAppVersion (vcsEnv env i) with
      | Returns appVersion =>
          let buildCmd := ExecGoBuild (buildArgs env buildFlags appVersion) in
          let out := output (goBuild env i) in
          if negb (failed (goBuild env i))
          then Some ([buildCmd], Returns (Some (NewApp (binName env)), None))
          else
            match Regexp.FindSubmatch importErrorPattern out with
            | None =>
                Some ([buildCmd],
                      Returns (None, Some (newCompileError (errorEnv env) out)))
            | Some matches =>
                let pkgName := Regexp.submatch matches 1 in
                if decide (pkgName ∈ gotten)
                then Some ([buildCmd],
                           Returns (None, Some (newCompileError (errorEnv env) out)))
                else
                  let gotten' := {[pkgName]} ∪ gotten in
                  if failed (goGet env i)
                  then Some ([buildCmd; ExecGoGet pkgName],
                             Returns (None,
                                      Some (newCompileError (errorEnv env) out)))
                  else
                    match buildLoop fuel' env buildFlags (S i) gotten' with
                    | Some (tr, res) =>
                        Some (buildCmd :: ExecGoGet pkgName :: tr, res)
                    | None => None
                    end
            end
      | Exits => Some ([], Exits)
      | Panics => Some ([], Panics)
      end
  end.

Definition Build (fuel : nat) (env : BuildEnv) (buildFlags : list string)
    : option (list Exec * outcome (option App * option Error)) :=
  match processSource env with
  | inr compileError => Some ([], Returns (None, Some compileError))
  | inl sourceInfo =>
      let sourceInfo :=
        match dbImport env with
        | Some dbImportPath =>
            {| ControllerSpecs := ControllerSpecs sourceInfo;
               TestSuites := TestSuites sourceInfo;
               InitImportPaths := InitImportPaths sourceInfo ++ [dbImportPath] |}
        | None => sourceInfo
        end in
      let importPaths := calcImportAliases sourceInfo in
      if negb (genSourceOk env) then Some ([], Exits)
      else
        let generated := [GenSource "tmp" "main.go" importPaths;
                          GenSource "routes" "routes.go" importPaths] in
        match lookPathGo env with
        | None => Some (generated, Exits)
        | Some goPath =>
            if negb (importFound env) then Some (generated, Exits)
            else
              match buildLoop fuel env buildFlags 0 ∅ with
              | Some (tr, res) => Some (generated ++ tr, res)
              | None => None
              end
        end
  end.

(** * The harness *)

Record Request := {
  URLPath : string;      (* r.URL.Path *)
  Upgrade : string       (* r.Header.Get("Upgrade") *)
}.

Record Harness := {
  app : option App;
  serverHost : string;
  port : Z
}.

(** What the harness does, in order. [EvNotify] carries what
    [watcher.Notify] returned. *)
Inductive Event :=
| EvNotify (err : option Error)
| EvRenderError (err : Error)
| EvProxyWebsocket (host : string)
| EvReverseProxy
| EvKill (a : App)
| EvBuild (tr : list Exec)
| EvStart (a : App).

(** [unicode.SimpleFold] on the orbits that hold an ASCII rune: the next rune
    of the orbit, in increasing order and wrapping around. The orbit of an
    ASCII letter is its two cases, with one more rune for k (the Kelvin sign,
    U+212A) and for s (the long s, U+017F). The orbits of the other runes are
    in the tables of [unicode], outside this code; they are taken as the rune
    alone, which [EqualFold] never asks for when one of its arguments is
    ASCII. *)
Definition SimpleFold (r : N) : N :=
  (if r =? 0x4B then 0x6B                    (* K, k *)
   else if r =? 0x6B then 0x212A             (* k, Kelvin sign *)
   else if r =? 0x212A then 0x4B
   else if r =? 0x53 then 0x73               (* S, s *)
   else if r =? 0x73 then 0x17F              (* s, long s *)
   else if r =? 0x17F then 0x53
   else if (0x41 <=? r) && (r <=? 0x5A) then r + 0x20
   else if (0x61 <=? r) && (r <=? 0x7A) then r - 0x20
   else r)%N.

(** The loop [for r != sr && r < tr { r = unicode.SimpleFold(r) }]. *)
Fixpoint foldUpTo (turns : nat) (sr tr r : N) : N :=
  match turns with
  | O => r
  | S turns' =>
      if (negb (r =? sr) && (r <? tr))%N
      then foldUpTo turns' sr tr (SimpleFold r)
      else r
  end.

(** The runes [sr] and [tr] are equal under simple case folding. *)
Definition equalFoldRune (sr tr : N) : bool :=
  if (tr =? sr)%N then true
  else
    (* make sr < tr *)
    let '(sr, tr) := if (tr <? sr)%N then (tr, sr) else (sr, tr) in
    if (tr <? RuneSelf)%N
    then (* ASCII only: sr and tr must be upper and lower case *)
      ((0x41 <=? sr) && (sr <=? 0x5A) && (tr =? sr + 0x20))%N
    else (foldUpTo 4 sr tr (SimpleFold sr) =? tr)%N.

(** The loop of [EqualFold]: it takes one rune off each text per turn, and
    ends when one of them is empty. *)
Fixpoint equalFoldLoop (turns : nat) (s t : string) : bool :=
  match turns with
  | O => String.eqb s t
  | S turns' =>
      match s, t with
      | String _ _, String _ _ =>
          let '(sr, ssize) := DecodeRuneInString s in
          let '(tr, tsize) := DecodeRuneInString t in
          if equalFoldRune sr tr
          then equalFoldLoop turns' (dropBytes ssize s) (dropBytes tsize t)
          else false
      | _, _ => String.eqb s t
      end
  end.

(** [strings.EqualFold]: the texts, read as UTF-8, are equal under simple
    Unicode case folding. *)
Definition EqualFold (s t : string) : bool :=
  equalFoldLoop (String.length s) s t.

(** [atomic.CompareAndSwapInt32] on the value of the variable: the new
    value. *)
Definition CompareAndSwapInt32 (v old new : Z) : Z :=
  if (v =? old)%Z then new else v.

(** [ServeHTTP], given the value of [lastRequestHadError] and what
    [watcher.Notify] returns if it is called for this request: the events and
    the new value of [lastRequestHadError]. *)
Definition ServeHTTP (hp : Harness) (lastRequestHadError : Z) (r : Request)
    (notify : option Error) : list Event * Z :=
  if (0 <? lastRequestHadError)%Z && String.eqb (URLPath r) "/favicon.ico"
  then ([], lastRequestHadError)
  else
    match notify with
    | Some err =>
        ([EvNotify (Some err); EvRenderError err],
         CompareAndSwapInt32 lastRequestHadError 0 1)
    | None =>
        let flag := CompareAndSwapInt32 lastRequestHadError 1 0 in
        if EqualFold (Upgrade r) "websocket"
        then ([EvNotify None; EvProxyWebsocket (serverHost hp)], flag)
        else ([EvNotify None; EvReverseProxy], flag)
    end.

(** Requests served one after the other, each paired with what
    [watcher.Notify] returns for it. *)
Fixpoint serveAll (hp : Harness) (lastRequestHadError : Z)
    (reqs : list (Request * option Error)) : list Event * Z :=
  match reqs with
  | [] => ([], lastRequestHadError)
  | (r, notify) :: reqs' =>
      let '(tr, flag) := ServeHTTP hp lastRequestHadError r notify in
      let '(tr', flag') := serveAll hp flag reqs' in
      (tr ++ tr', flag')
  end.

(** What the latest call of [watcher.Notify] returned, if there was one. *)
Fixpoint lastNotify (tr : list Event) : option (option Error) :=
  match tr with
  | [] => None
  | e :: tr' =>
      match lastNotify tr' with
      | Some res => Some res
      | None => match e with EvNotify res => Some res | _ => None end
      end
  end.

(** [Harness.Refresh], given the live children [ps] and what starting the new
    child will answer ([startError]): the events, and when it returns, the
    harness, the live children and the error. *)
Definition Refresh (fuel : nat) (h : Harness) (env : BuildEnv)
    (startError : option string) (ps : Procs)
    : option (list Event * outcome (Harness * Procs * option Error)) :=
  let '(killed, ps1) :=
    match app h with
    | Some a => ([EvKill a], Kill a ps)
    | None => ([], ps)
    end in
  match Build fuel env [] with
  | None => None
  | Some (tr, Exits) => Some (killed ++ [EvBuild tr], Exits)
  | Some (tr, Panics) => Some (killed ++ [EvBuild tr], Panics)
  | Some (tr, Returns (app', err)) =>
      (* h.app, err = Build() *)
      let h1 := {| app := app'; serverHost := serverHost h; port := port h |} in
      match err with
      | Some e => Some (killed ++ [EvBuild tr], Returns (h1, ps1, Some e))
      | None =>
          match app' with
          | None => Some (killed ++ [EvBuild tr], Panics)   (* h.app.Port on nil *)
          | Some a =>
              let a1 := {| BinaryPath := BinaryPath a; Port := port h;
                           process := process a |} in
              let '(a2, ps2, err2) := Start a1 startError ps1 in
              let h2 := {| app := Some a2; serverHost := serverHost h;
                           port := port h |} in
              let tr2 := killed ++ [EvBuild tr; EvStart a1] in
              match err2 with
              | Some msg =>
                  Some (tr2,
                        Returns (h2, ps2,
                                 Some {| SourceType := "";
                                         Title := "App failed to start up";
                                         Path := ""; Description := msg;
                                         Line := 0; SourceLines := [];
                                         MetaError := ""; Link := "" |}))
              | None => Some (tr2, Returns (h2, ps2, None))
              end
          end
      end
  end.

(** The harness owns every live child: a child that runs is the process of
    the harness's [App]. *)
Definition ownsChildren (h : Harness) (ps : Procs) : Prop :=
  ∀ pid, pid ∈ running ps → ∃ a, app h = Some a ∧ process a = Some pid.

(** ** Notions used to state the properties of the patterns *)

(** Every character of [s] satisfies [p]. *)
Fixpoint allChars (p : ascii → bool) (s : string) : bool :=
  match s with
  | "" => true
  | String a s' => p a && allChars p s'
  end.

(** [s] does not go on with a character of [p]. *)
Definition stopsAt (p : ascii → bool) (s : string) : bool :=
  match s with
  | "" => true
  | String a _ => negb (p a)
  end.

(** The line-start flag after the text [a]. *)
Fixpoint bolAfter (bol : bool) (a : string) : bool :=
  match a with
  | "" => bol
  | String c a' => bolAfter (Regexp.isNewline c) a'
  end.

(** The package a build output reports as missing: group 1 of
    [importErrorPattern]. *)
Definition missingPackage (out : string) : option string :=
  match Regexp.FindSubmatch importErrorPattern out with
  | Some matches => Some (Regexp.submatch matches 1)
  | None => None
  end.

(** The request is one of the silenced class: a favicon probe while the last
    request had a build error. *)
Definition silenced (lastRequestHadError : Z) (r : Request) : Prop :=
  (0 < lastRequestHadError)%Z ∧ URLPath r = "/favicon.ico".

(** The request was handed to the supervised process. *)
Definition forwarded (tr : list Event) : Prop :=
  EvReverseProxy ∈ tr ∨ ∃ host, EvProxyWebsocket host ∈ tr.

(** ** Sample environments *)

(** An environment in which nothing fails: the analysis succeeds, the tools
    are found, every command succeeds. *)
Definition quietErrorEnv : ErrorEnv :=
  {| filepathAbs := λ rel, "/home/dev/go/" +:+ rel;
     ReadLines := λ _, inr "no such file or directory";
     errorLink := "" |}.

Definition quietEnv : BuildEnv :=
  {| processSource := inl {| ControllerSpecs := []; TestSuites := [];
                             InitImportPaths := [] |};
     dbImport := None;
     genSourceOk := true;
     buildTags := "";
     lookPathGo := Some "/usr/local/go/bin/go";
     importFound := true;
     gospfImportPath := "github.com/hubply/samples/chat";
     binPath := "/home/dev/go/bin/gospf.d/github.com/hubply/samples/chat/chat";
     mainPath := "github.com/hubply/samples/chat/app/tmp";
     runtimeGOOS := "linux";
     envGOOS := "";
     vcsEnv := λ _, {| APP_VERSION := "1.0"; lookPathGit := None;
                       statGitDir := StatError ErrNotExist;
                       gitDescribe := {| output := ""; failed := true |} |};
     goBuild := λ _, {| output := ""; failed := false |};
     goGet := λ _, {| output := ""; failed := false |};
     errorEnv := quietErrorEnv |}.

(** The same environment with other answers of [go build] and [go get]. *)
Definition withCommands (goBuild' goGet' : nat → CmdResult) : BuildEnv :=
  {| processSource := processSource quietEnv; dbImport := dbImport quietEnv;
     genSourceOk := genSourceOk quietEnv; buildTags := buildTags quietEnv;
     lookPathGo := lookPathGo quietEnv; importFound := importFound quietEnv;
     gospfImportPath := gospfImportPath quietEnv; binPath := binPath quietEnv;
     mainPath := mainPath quietEnv; runtimeGOOS := runtimeGOOS quietEnv;
     envGOOS := envGOOS quietEnv; vcsEnv := vcsEnv quietEnv;
     goBuild := goBuild'; goGet := goGet'; errorEnv := errorEnv quietEnv |}.

(** The build output that reports the package [pkgName] as missing. *)
Definition cannotFind (pkgName : string) : string :=
  "cannot find package " +:+ String dquote (pkgName +:+ String dquote "").

(** An endless chain of packages, each one missing: p, xp, xxp, ... *)
Fixpoint chainPkg (i : nat) : string :=
  match i with
  | O => "p"
  | S j => String "x" (chainPkg j)
  end.

(** Every build fails for want of the next package of the chain, and every
    [go get] succeeds. *)
Definition chainEnv : BuildEnv :=
  withCommands (λ i, {| output := cannotFind (chainPkg i); failed := true |})
               (λ _, {| output := ""; failed := false |}).

(** [Build] does not return, however much fuel it is given. *)
Definition neverReturns (env : BuildEnv) (buildFlags : list string) : Prop :=
  ∀ fuel, Build fuel env buildFlags = None.

(** Every build fails for want of the same package, which [go get] fetches
    without curing the build. *)
Definition stuckEnv : BuildEnv :=
  withCommands (λ _, {| output := cannotFind "github.com/lib/pq"; failed := true |})
               (λ _, {| output := ""; failed := false |}).

(** A harness whose child, process 7, is running the previous build. *)
Definition servingHarness : Harness :=
  {| app := Some {| BinaryPath := binName quietEnv; Port := 9001;
                    process := Some 7 |};
     serverHost := "localhost:9001"; port := 9001 |}.

Definition servingProcs : Procs := {| running := {[7]}; nextPid := 8 |}.

(** The build fails on a compile error of the application. *)
Definition brokenEnv : BuildEnv :=
  withCommands (λ _, {| output := "# github.com/hubply/samples/chat/app/controllers"
                                    +:+ String "010" "app/controllers/app.go:12: undefined: x"
                                    +:+ String "010" "";
                        failed := true |})
               (λ _, {| output := ""; failed := false |}).

(** ** Build output, as the toolchain writes it *)

Definition newline : string := String "010" "".


(** A diagnostic line [path:line:col: message], or [path:line: message] when
    there is no column. *)
Definition diagnostic (path line : string) (col : option string)
    (message : string) : string :=
  path +:+ ":" +:+ line +:+ ":"
    +:+ match col with Some c => c +:+ ":" | None => "" end
    +:+ " " +:+ message.


(** Group 3 of the first pattern: the column with its colon, when there is
    one. *)
Definition colCapture (col : option string) : option string :=
  match col with
  | Some c => Some (c +:+ ":")
  | None => None
  end.

(** What stands between the second colon and the message in a match of the
    first pattern: the optional column with its colon, then one space. *)
Definition columnSeparator (col : option string) : string :=
  match col with Some c => c +:+ ":" | None => "" end +:+ " ".




(** * Notions used by the further properties *)

(** An import path named by the analyzer's output: the package of a
    controller or a test suite, or the package of an argument of one of their
    methods. *)
Definition typedImport (src : SourceInfo) (p : string) : Prop :=
  ∃ spec, spec ∈ ControllerSpecs src ++ TestSuites src
          ∧ (p = ImportPath spec
             ∨ ∃ methSpec methArg,
                 methSpec ∈ MethodSpecs spec ∧ methArg ∈ Args methSpec
                 ∧ arg_ImportPath methArg = p ∧ p ≠ "").

(** The analyzer found one controller, in [app/controllers], with an action
    that takes a [models.User]; the application configures a database
    driver. *)
Definition blogSource : SourceInfo :=
  {| ControllerSpecs :=
       [{| ImportPath := "github.com/hubply/samples/blog/app/controllers";
           PackageName := "controllers";
           MethodSpecs :=
             [{| Args := [{| arg_ImportPath := "";
                             arg_TypeExpr := {| PkgName := "" |} |};
                          {| arg_ImportPath := "github.com/hubply/samples/blog/app/models";
                             arg_TypeExpr := {| PkgName := "models" |} |}] |}] |}];
     TestSuites := [];
     InitImportPaths := [] |}.

Definition blogEnv : BuildEnv :=
  {| processSource := inl blogSource; dbImport := Some "github.com/lib/pq";
     genSourceOk := genSourceOk quietEnv; buildTags := buildTags quietEnv;
     lookPathGo := lookPathGo quietEnv; importFound := importFound quietEnv;
     gospfImportPath := gospfImportPath quietEnv; binPath := binPath quietEnv;
     mainPath := mainPath quietEnv; runtimeGOOS := runtimeGOOS quietEnv;
     envGOOS := envGOOS quietEnv; vcsEnv := vcsEnv quietEnv;
     goBuild := goBuild quietEnv; goGet := goGet quietEnv;
     errorEnv := errorEnv quietEnv |}.

(** The first build fails for want of a package, [go get] fetches it, the
    second build succeeds. *)
Definition fetchOnceEnv : BuildEnv :=
  withCommands
    (λ i, match i with
          | O => {| output := "app/controllers/app.go:4:2: "
                                +:+ cannotFind "github.com/lib/pq"
                                +:+ " in any of:";
                    failed := true |}
          | S _ => {| output := ""; failed := false |}
          end)
    (λ _, {| output := ""; failed := false |}).

(** ** The watcher's filters *)

Definition doNotWatch : list string := ["tmp"; "views"; "routes"].

(** [gospf.ContainsString], of the framework: the list holds the string. *)
Definition ContainsString (list : list string) (s : string) : bool :=
  existsb (String.eqb s) list.

(** [Harness.WatchDir], on the name of the directory ([info.Name()]). *)
Definition WatchDir (name : string) : bool :=
  negb (ContainsString doNotWatch name).

(** [strings.HasSuffix]. *)
Definition HasSuffix (s suffix : string) : bool :=
  (String.length suffix <=? String.length s)
  && String.eqb (String.substring (String.length s - String.length suffix)
                                  (String.length suffix) s)
                suffix.

(** [Harness.WatchFile]. *)
Definition WatchFile (filename : string) : bool := HasSuffix filename ".go".

(** ** The WebSocket tunnel, as the handler's own goroutine runs it *)

(** What the calls of [proxyWebsocket] answer. *)
Record TunnelEnv := {
  dialOk : bool;       (* net.Dial returned no error *)
  isHijacker : bool;   (* w is an http.Hijacker *)
  hijackOk : bool;     (* hj.Hijack returned no error *)
  writeOk : bool       (* r.Write(d) returned no error *)
}.

(** The two connections: [nc], hijacked from the client, and [d], dialled to
    the backend. *)
Inductive Conn := ClientConn | BackendConn.

Inductive TunnelEvent :=
| TnDial (host : string)
| TnHttpError (message : string) (code : Z)
| TnHijack
| TnWriteRequest                  (* r.Write(d) *)
| TnCopy (dst src : Conn)         (* go cp(dst, src) *)
| TnAwait                         (* <-errc *)
| TnClose (c : Conn).

(** [proxyWebsocket]: the events of the calling goroutine, in order. The two
    copy loops run on their own; here they are started and the first result is
    awaited. The closes are the deferred ones, run at the return in reverse
    order of their [defer]. *)
Definition proxyWebsocket (env : TunnelEnv) (host : string) : list TunnelEvent :=
  TnDial host ::
  if negb (dialOk env)
  then [TnHttpError "Error contacting backend server." 500]
  else if negb (isHijacker env)
  then [TnHttpError "Not a hijacker?" 500]
  else
    TnHijack ::
    if negb (hijackOk env) then []
    else
      let deferred := [TnClose BackendConn; TnClose ClientConn] in
      TnWriteRequest ::
      (if negb (writeOk env) then []
       else [TnCopy BackendConn ClientConn; TnCopy ClientConn BackendConn;
             TnAwait])
      ++ deferred.


(** The [go build] commands run, in order. *)
Definition buildCommands (tr : list Exec) : list (list string) :=
  omap (λ e, match e with ExecGoBuild flags => Some flags | _ => None end) tr.

(** ** [ServeHTTP] when requests overlap

    [net/http] serves every connection in a goroutine of its own, so the calls
    of [ServeHTTP] for several requests overlap, and between two steps of one
    handler the others may run. A handler reads [lastRequestHadError] in the
    favicon check, calls [watcher.Notify], updates [lastRequestHadError] with
    a compare-and-swap, and answers (the error page or the forwarding). *)

(** Where a handler stands in [ServeHTTP]. *)
Inductive HandlerPc :=
| PcCheck                         (* at the favicon check *)
| PcNotify                        (* at the call of watcher.Notify *)
| PcUpdate (err : option Error)   (* Notify returned err; at the compare-and-swap *)
| PcAnswer (err : option Error)   (* at renderError, or at the forwarding *)
| PcDone.                         (* returned *)

(** A handler: its request, what [watcher.Notify] returns when this handler
    calls it, and where it stands. *)
Record Handler := {
  request : Request;
  notifyResult : option Error;
  pc : HandlerPc
}.

(** The steps of a handler. *)
Inductive Action :=
| ActCheck (dropped : bool)       (* the favicon check; true: the early return *)
| ActNotify (err : option Error)  (* watcher.Notify returned err *)
| ActUpdate (err : option Error)  (* the compare-and-swap made after err *)
| ActAnswer (e : Event).          (* renderError or the forwarding *)

(** The answer to a request once [Notify] has returned. *)
Definition answer (hp : Harness) (r : Request) (err : option Error) : Event :=
  match err with
  | Some e => EvRenderError e
  | None =>
      if EqualFold (Upgrade r) "websocket"
      then EvProxyWebsocket (serverHost hp)
      else EvReverseProxy
  end.

(** One step of a handler, given the value of [lastRequestHadError] at that
    moment: where the handler stands next, the new value, and the step made.
    [None]: the handler has returned. *)
Definition handlerStep (hp : Harness) (lastRequestHadError : Z) (h : Handler)
    : option (HandlerPc * Z * Action) :=
  match pc h with
  | PcCheck =>
      if (0 <? lastRequestHadError)%Z
         && String.eqb (URLPath (request h)) "/favicon.ico"
      then Some (PcDone, lastRequestHadError, ActCheck true)
      else Some (PcNotify, lastRequestHadError, ActCheck false)
  | PcNotify =>
      Some (PcUpdate (notifyResult h), lastRequestHadError,
            ActNotify (notifyResult h))
  | PcUpdate (Some e) =>
      Some (PcAnswer (Some e), CompareAndSwapInt32 lastRequestHadError 0 1,
            ActUpdate (Some e))
  | PcUpdate None =>
      Some (PcAnswer None, CompareAndSwapInt32 lastRequestHadError 1 0,
            ActUpdate None)
  | PcAnswer err =>
      Some (PcDone, lastRequestHadError, ActAnswer (answer hp (request h) err))
  | PcDone => None
  end.

(** The handlers in flight and the shared variable. *)
Record Server := {
  handlers : list Handler;
  errorFlag : Z                   (* lastRequestHadError *)
}.

(** The handler number [i] makes its next step. [None]: there is no such
    handler, or it has returned. *)
Definition serverStep (hp : Harness) (i : nat) (sv : Server)
    : option (Server * Action) :=
  match handlers sv !! i with
  | Some h =>
      match handlerStep hp (errorFlag sv) h with
      | Some (pc', flag', act) =>
          Some ({| handlers :=
                     <[i := {| request := request h;
                               notifyResult := notifyResult h; pc := pc' |}]>
                       (handlers sv);
                   errorFlag := flag' |},
                act)
      | None => None
      end
  | None => None
  end.

(** A run: the handlers step in the order of the schedule. The trace pairs
    each step with the number of the handler that made it. *)
Fixpoint serve (hp : Harness) (schedule : list nat) (sv : Server)
    : option (Server * list (nat * Action)) :=
  match schedule with
  | [] => Some (sv, [])
  | i :: schedule' =>
      match serverStep hp i sv with
      | Some (sv', act) =>
          match serve hp schedule' sv' with
          | Some (sv'', tr) => Some (sv'', (i, act) :: tr)
          | None => None
          end
      | None => None
      end
  end.

(** The requests as they arrive, each with what [Notify] will return to its
    handler and its handler at the start of [ServeHTTP], and the flag
    clear. *)
Definition arriving (rn : Request * option Error) : Handler :=
  {| request := rn.1; notifyResult := rn.2; pc := PcCheck |}.

Definition arrivals (reqs : list (Request * option Error)) : Server :=
  {| handlers := arriving <$> reqs; errorFlag := 0 |}.

(** The steps of handler [i] in a trace. *)
Definition actionsOf (i : nat) (tr : list (nat * Action)) : list Action :=
  omap (λ ia, if decide (ia.1 = i) then Some ia.2 else None) tr.

(** The events of a trace, as [ServeHTTP] lists them. *)
Definition events (tr : list (nat * Action)) : list Event :=
  omap (λ ia, match ia.2 with
              | ActNotify err => Some (EvNotify err)
              | ActAnswer e => Some e
              | _ => None
              end) tr.

(** What the latest compare-and-swap of a trace was made after. *)
Fixpoint lastUpdate (tr : list (nat * Action)) : option (option Error) :=
  match tr with
  | [] => None
  | ia :: tr' =>
      match lastUpdate tr' with
      | Some err => Some err
      | None => match ia.2 with ActUpdate err => Some err | _ => None end
      end
  end.

(** All the steps of the handler of a request: the early return, or the
    check, [Notify], the update of the flag after what [Notify] returned, and
    the answer. *)
Definition script (hp : Harness) (r : Request) (err : option Error)
    (dropped : bool) : list Action :=
  if dropped then [ActCheck true]
  else [ActCheck false; ActNotify err; ActUpdate err; ActAnswer (answer hp r err)].

(** The schedule that serves the requests one at a time, from handler [i]
    on. *)
Fixpoint oneAtATime (hp : Harness) (lastRequestHadError : Z) (i : nat)
    (reqs : list (Request * option Error)) : list nat :=
  match reqs with
  | [] => []
  | (r, notify) :: reqs' =>
      (if (0 <? lastRequestHadError)%Z && String.eqb (URLPath r) "/favicon.ico"
       then [i] else [i; i; i; i])
      ++ oneAtATime hp (ServeHTTP hp lastRequestHadError r notify).2 (S i) reqs'
  end.

(** A handler that has returned. *)
Definition returned (rn : Request * option Error) : Handler :=
  {| request := rn.1; notifyResult := rn.2; pc := PcDone |}.

(** The steps a handler has made when it stands at [p]. *)
Definition stepsDone (hp : Harness) (r : Request) (err : option Error)
    (dropped : bool) (p : HandlerPc) : list Action :=
  match p with
  | PcCheck => []
  | PcNotify => [ActCheck false]
  | PcUpdate _ => [ActCheck false; ActNotify err]
  | PcAnswer _ => [ActCheck false; ActNotify err; ActUpdate err]
  | PcDone => script hp r err dropped
  end.

(** Two requests that overlap: the first handler's [Notify] fails, the second
    one's succeeds, and the first handler updates the flag last. *)
Definition overlapRequests : list (Request * option Error) :=
  [({| URLPath := "/"; Upgrade := "" |}, Some genericCompileError);
   ({| URLPath := "/"; Upgrade := "" |}, None)].

Definition overlapSchedule : list nat := [0; 0; 1; 1; 1; 1; 0; 0].

(** The flag a trace leaves: set when its latest update was made after an
    error. *)
Definition flagAfter (tr : list (nat * Action)) : Z :=
  match lastUpdate tr with
  | Some (Some _) => 1
  | _ => 0
  end.

(** A failed rebuild with a favicon probe that arrives while the error page is
    still being rendered. *)
Definition probeRequests : list (Request * option Error) :=
  [({| URLPath := "/"; Upgrade := "" |}, Some genericCompileError);
   ({| URLPath := "/favicon.ico"; Upgrade := "" |}, None)].

Definition probeSchedule : list nat := [0; 0; 0; 1; 0].

(** * Properties *)

Module Str.

Lemma app_nil_r (s : string) : s +:+ "" = s.
Proof. induction s as [|a s IH]; simpl; [done | by f_equal]. Qed.

Lemma app_assoc (s t u : string) : (s +:+ t) +:+ u = s +:+ (t +:+ u).
Proof. induction s as [|a s IH]; simpl; [done | by f_equal]. Qed.

Lemma app_length (s t : string) :
  String.length (s +:+ t) = String.length s + String.length t.
Proof. induction s as [|a s IH]; simpl; [done | by f_equal]. Qed.

Lemma app_eq_self (s t : string) : s +:+ t = s → t = "".
Proof.
  intros H. apply (f_equal String.length) in H.
  rewrite app_length in H. destruct t; [done | simpl in H; lia].
Qed.

End Str.

Lemma pretty_N_go_nonempty (x : N) (s : string) : s ≠ "" → pretty_N_go x s ≠ "".
Proof.
  revert s. induction (N.lt_wf_0 x) as [x _ IH]; intros s Hs.
  destruct (decide (x = 0)%N) as [->|Hx].
  - by rewrite pretty_N_go_0.
  - rewrite pretty_N_go_step by lia.
    apply IH; [apply N.div_lt; lia | done].
Qed.

Lemma itoa_nonempty (i : nat) : itoa i ≠ "".
Proof.
  unfold itoa, pretty, pretty_nat, pretty, pretty_N.
  case_decide; [done |].
  rewrite pretty_N_go_step by lia. by apply pretty_N_go_nonempty.
Qed.

Lemma itoa_inj (i j : nat) : itoa i = itoa j → i = j.
Proof. apply pretty_nat_inj. Qed.

(** ** Alias resolution *)

Section alias_facts.
Implicit Types (m : gmap string string) (p q a n : string).

Lemma containsValue_true m a :
  containsValue m a = true ↔ ∃ p, m !! p = Some a.
Proof.
  unfold containsValue. rewrite existsb_exists. split.
  - intros [[p b] [Hin Heq]]. apply String.eqb_eq in Heq. simpl in Heq.
    subst b. exists p. by apply elem_of_map_to_list, list_elem_of_In.
  - intros [p Hp]. exists (p, a). split.
    + by apply list_elem_of_In, elem_of_map_to_list.
    + apply String.eqb_refl.
Qed.

Lemma containsValue_false m a :
  containsValue m a = false ↔ ∀ p, m !! p ≠ Some a.
Proof.
  rewrite <- not_true_iff_false, containsValue_true.
  split; [intros H p Hp; apply H; by exists p | intros H [p Hp]; by apply (H p)].
Qed.

Lemma aliasCandidate_inj n j k :
  aliasCandidate n j = aliasCandidate n k → j = k.
Proof.
  destruct j as [|j], k as [|k]; simpl; intros H; [done | | |].
  - symmetry in H. apply Str.app_eq_self in H. by destruct (itoa_nonempty k).
  - apply Str.app_eq_self in H. by destruct (itoa_nonempty j).
  - f_equal. by apply itoa_inj, (String.app_inj n).
Qed.

(** What one run of the loop leaves: the first unused candidate, or, had the
    fuel run out, a table holding every candidate tried. *)
Lemma makePackageAlias_loop_spec fuel m n i :
  match makePackageAlias_loop fuel m n i (aliasCandidate n i) with
  | Some a =>
      ∃ k, i ≤ k ∧ a = aliasCandidate n k ∧ containsValue m a = false
           ∧ ∀ j, i ≤ j < k → containsValue m (aliasCandidate n j) = true
  | None => ∀ j, i ≤ j ≤ i + fuel → containsValue m (aliasCandidate n j) = true
  end.
Proof.
  revert i. induction fuel as [|fuel IH]; intros i; simpl.
  - destruct (containsValue m (aliasCandidate n i)) eqn:Hc.
    + intros j Hj. by replace j with i by lia.
    + exists i. repeat split; [lia | done | intros; lia].
  - destruct (containsValue m (aliasCandidate n i)) eqn:Hc.
    + specialize (IH (S i)). simpl in IH.
      destruct (makePackageAlias_loop fuel m n (S i) (n +:+ itoa i)).
      * destruct IH as (k & Hk & -> & Hfree & Hused).
        exists k. repeat split; [lia | done |].
        intros j Hj. destruct (decide (j = i)) as [->|]; [done |].
        apply Hused. lia.
      * intros j Hj. destruct (decide (j = i)) as [->|]; [done |].
        apply IH. lia.
    + exists i. repeat split; [lia | done | intros; lia].
Qed.

(** A table of [size m] entries cannot hold [size m + 1] distinct
    candidates: the loop returns. *)
Lemma makePackageAlias_loop_returns m n :
  is_Some (makePackageAlias_loop (size m) m n 0 n).
Proof.
  pose proof (makePackageAlias_loop_spec (size m) m n 0) as H. simpl in H.
  destruct (makePackageAlias_loop (size m) m n 0 n); [by eexists |].
  exfalso.
  assert (aliasCandidate n <$> seq 0 (S (size m)) ⊆+ (map_to_list m).*2) as Hsub.
  { apply NoDup_submseteq.
    - apply NoDup_fmap_2_strong; [| apply NoDup_seq].
      intros j k _ _. apply aliasCandidate_inj.
    - intros a (j & -> & Hj)%list_elem_of_fmap.
      apply elem_of_seq in Hj.
      destruct (proj1 (containsValue_true m _) (H j ltac:(lia))) as [p Hp].
      apply list_elem_of_fmap. exists (p, aliasCandidate n j).
      split; [done | by apply elem_of_map_to_list]. }
  apply submseteq_length in Hsub.
  rewrite !length_fmap, length_seq, length_map_to_list in Hsub. lia.
Qed.

Lemma makePackageAlias_spec m n :
  ∃ k, makePackageAlias m n = aliasCandidate n k
       ∧ containsValue m (aliasCandidate n k) = false
       ∧ ∀ j, j < k → containsValue m (aliasCandidate n j) = true.
Proof.
  unfold makePackageAlias.
  pose proof (makePackageAlias_loop_spec (size m) m n 0) as H. simpl in H.
  destruct (makePackageAlias_loop_returns m n) as [a Ha].
  rewrite Ha in H |- *. simpl.
  destruct H as (k & _ & -> & Hfree & Hused).
  exists k. repeat split; [done |]. intros j Hj. apply Hused. lia.
Qed.

Lemma makePackageAlias_unused m n p : m !! p ≠ Some (makePackageAlias m n).
Proof.
  destruct (makePackageAlias_spec m n) as (k & -> & Hfree & _).
  by apply containsValue_false.
Qed.

Lemma makePackageAlias_free m n :
  containsValue m n = false → makePackageAlias m n = n.
Proof.
  intros Hn. destruct (makePackageAlias_spec m n) as (k & -> & _ & Hused).
  destruct k as [|k]; [done |].
  specialize (Hused 0 ltac:(lia)). simpl in Hused. congruence.
Qed.

End alias_facts.

Section alias_table.
Implicit Types (m : gmap string string) (p q a n : string).
Implicit Types (reqs pre post : list (string * string)).

Lemma addAlias_lookup_old m p n q a :
  m !! q = Some a → addAlias m p n !! q = Some a.
Proof.
  intros Hq. unfold addAlias. destruct (m !! p) eqn:Hp; [done |].
  rewrite lookup_insert_ne; [done | congruence].
Qed.

Lemma addAlias_lookup_new m p n :
  m !! p = None → addAlias m p n !! p = Some (makePackageAlias m n).
Proof. intros Hp. unfold addAlias. rewrite Hp. apply lookup_insert_eq. Qed.

Lemma addAlias_distinct m p n :
  aliasesDistinct m → aliasesDistinct (addAlias m p n).
Proof.
  intros Hm q1 q2 a. unfold addAlias. destruct (m !! p) eqn:Hp; [apply Hm |].
  rewrite !lookup_insert. repeat case_decide; subst; intros H1 H2.
  - done.
  - injection H1 as <-. by destruct (makePackageAlias_unused m n q2).
  - injection H2 as <-. by destruct (makePackageAlias_unused m n q1).
  - by apply (Hm q1 q2 a).
Qed.

Lemma addAliases_app m reqs1 reqs2 :
  addAliases m (reqs1 ++ reqs2) = addAliases (addAliases m reqs1) reqs2.
Proof. apply foldl_app. Qed.

Lemma addAliases_lookup_old m reqs q a :
  m !! q = Some a → addAliases m reqs !! q = Some a.
Proof.
  revert m. induction reqs as [|[p n] reqs IH]; intros m Hq; [done |].
  simpl. by apply IH, addAlias_lookup_old.
Qed.

Lemma addAliases_distinct m reqs :
  aliasesDistinct m → aliasesDistinct (addAliases m reqs).
Proof.
  revert m. induction reqs as [|[p n] reqs IH]; intros m Hm; [done |].
  simpl. by apply IH, addAlias_distinct.
Qed.

Lemma addAliases_lookup_None m reqs p :
  m !! p = None → p ∉ reqs.*1 → addAliases m reqs !! p = None.
Proof.
  revert m. induction reqs as [|[q n] reqs IH]; intros m Hp Hnot; [done |].
  simpl in *. apply not_elem_of_cons in Hnot as [Hne Hnot].
  apply IH; [| done]. unfold addAlias. destruct (m !! q); [done |].
  by rewrite lookup_insert_ne.
Qed.

(** The nested loops of [calcImportAliases] issue [aliasRequests] in order. *)
Lemma addArgAliases_requests m args :
  addArgAliases m args = addAliases m (argRequests args).
Proof.
  unfold addArgAliases, argRequests. revert m.
  induction args as [|methArg args IH]; intros m; [done |].
  simpl. destruct (String.eqb (arg_ImportPath methArg) ""); simpl; apply IH.
Qed.

Lemma addSpecAliases_requests m spec :
  addSpecAliases m spec = addAliases m (specRequests spec).
Proof.
  unfold addSpecAliases, specRequests. simpl.
  generalize (addAlias m (ImportPath spec) (PackageName spec)). clear m.
  induction (MethodSpecs spec) as [|methSpec specs IH]; intros m; [done |].
  simpl. rewrite addAliases_app, <- addArgAliases_requests. apply IH.
Qed.

Lemma foldl_addSpecAliases_requests m specs :
  foldl addSpecAliases m specs = addAliases m (concat (map specRequests specs)).
Proof.
  revert m. induction specs as [|spec specs IH]; intros m; [done |].
  change (concat (map specRequests (spec :: specs)))
    with (specRequests spec ++ concat (map specRequests specs)).
  rewrite addAliases_app, <- addSpecAliases_requests. apply IH.
Qed.

Lemma typeAliases_requests src :
  typeAliases src = addAliases ∅ (aliasRequests src).
Proof.
  unfold typeAliases, aliasRequests. simpl.
  by rewrite addAliases_app, !foldl_addSpecAliases_requests.
Qed.

Lemma addInitImports_lookup_old m paths q a :
  m !! q = Some a → addInitImports m paths !! q = Some a.
Proof.
  revert m. induction paths as [|p paths IH]; intros m Hq; [done |].
  simpl. apply IH. destruct (m !! p) eqn:Hp; [done |].
  rewrite lookup_insert_ne; [done | congruence].
Qed.

Lemma addInitImports_lookup_new m paths q :
  m !! q = None → q ∈ paths → addInitImports m paths !! q = Some "_".
Proof.
  revert m. induction paths as [|p paths IH]; intros m Hq Hin.
  - by apply elem_of_nil in Hin.
  - simpl. destruct (decide (p = q)) as [->|Hne].
    + rewrite Hq. apply addInitImports_lookup_old, lookup_insert_eq.
    + apply elem_of_cons in Hin as [->|Hin]; [done |].
      apply IH; [| done]. destruct (m !! p); [done |].
      by rewrite lookup_insert_ne.
Qed.

Lemma addInitImports_lookup_inv m paths q a :
  addInitImports m paths !! q = Some a → m !! q = Some a ∨ a = "_".
Proof.
  revert m. induction paths as [|p paths IH]; intros m Hq; [by left |].
  simpl in Hq. apply IH in Hq as [Hq | ->]; [| by right].
  destruct (m !! p) eqn:Hp; [by left |].
  rewrite lookup_insert in Hq. case_decide; [| by left].
  right. congruence.
Qed.

End alias_table.

(** The table of an application: typed imports get distinct aliases
    ([typeAliases]), and the init imports are added with ["_"]. *)
Lemma calcImportAliases_lookup_inv (src : SourceInfo) (p a : string) :
  calcImportAliases src !! p = Some a →
  typeAliases src !! p = Some a ∨ (typeAliases src !! p = None ∧ a = "_").
Proof.
  intros Hp. destruct (typeAliases src !! p) as [b|] eqn:Ht.
  - left. unfold calcImportAliases in Hp.
    by rewrite (addInitImports_lookup_old _ _ _ _ Ht) in Hp.
  - right. split; [done |].
    apply addInitImports_lookup_inv in Hp as [Hp | ->]; [congruence | done].
Qed.

Lemma typeAliases_distinct (src : SourceInfo) : aliasesDistinct (typeAliases src).
Proof.
  rewrite typeAliases_requests. apply addAliases_distinct.
  intros p q a Hp. by rewrite lookup_empty in Hp.
Qed.

(** C1 (as amended). In the table [calcImportAliases] computes:
    - two distinct import paths share an alias only if that alias is the
      discard alias ["_"];
    - the aliases of the typed imports (controller and test-suite packages and
      the packages of method arguments) are pairwise distinct;
    - the first request for an import path decides its alias: the package
      name when no alias assigned so far equals it, otherwise the package name
      followed by the least suffix 0, 1, 2, ... that no alias assigned so far
      uses;
    - an init import path with no alias from the typed imports gets ["_"]. *)
Theorem calcImportAliases_unique_up_to_discard (src : SourceInfo) :
  (∀ p q a, p ≠ q → calcImportAliases src !! p = Some a →
            calcImportAliases src !! q = Some a → a = "_")
  ∧ aliasesDistinct (typeAliases src)
  ∧ (∀ pre p n post,
       aliasRequests src = pre ++ (p, n) :: post → p ∉ pre.*1 →
       ∃ k, calcImportAliases src !! p = Some (aliasCandidate n k)
            ∧ containsValue (addAliases ∅ pre) (aliasCandidate n k) = false
            ∧ ∀ j, j < k →
                   containsValue (addAliases ∅ pre) (aliasCandidate n j) = true)
  ∧ (∀ p, p ∈ InitImportPaths src → typeAliases src !! p = None →
          calcImportAliases src !! p = Some "_").
Proof.
  split; [| split; [| split]].
  - intros p q a Hne Hp Hq.
    apply calcImportAliases_lookup_inv in Hp as [Hp | [_ ->]]; [| done].
    apply calcImportAliases_lookup_inv in Hq as [Hq | [_ ->]]; [| done].
    by destruct Hne; apply (typeAliases_distinct src p q a).
  - apply typeAliases_distinct.
  - intros pre p n post Hreqs Hfirst.
    destruct (makePackageAlias_spec (addAliases ∅ pre) n) as (k & Hk & Hfree & Hused).
    exists k. split; [| done].
    apply addInitImports_lookup_old.
    rewrite typeAliases_requests, Hreqs, addAliases_app. simpl.
    apply addAliases_lookup_old. rewrite <- Hk.
    apply addAlias_lookup_new, addAliases_lookup_None; [apply lookup_empty | done].
  - intros p Hin Hnone. by apply addInitImports_lookup_new.
Qed.

(** C1, counterexample: two init imports (here two database drivers) both get
    the alias ["_"], so the aliases of the table are not unique. *)
Lemma calcImportAliases_discard_shared :
  let src := {| ControllerSpecs := []; TestSuites := [];
                InitImportPaths := ["github.com/lib/pq";
                                    "github.com/go-sql-driver/mysql"] |} in
  calcImportAliases src !! "github.com/lib/pq" = Some "_"
  ∧ calcImportAliases src !! "github.com/go-sql-driver/mysql" = Some "_"
  ∧ ¬ aliasesDistinct (calcImportAliases src).
Proof.
  assert (calcImportAliases
            {| ControllerSpecs := []; TestSuites := [];
               InitImportPaths := ["github.com/lib/pq";
                                   "github.com/go-sql-driver/mysql"] |}
          !! "github.com/lib/pq" = Some "_") as H1 by (by vm_compute).
  assert (calcImportAliases
            {| ControllerSpecs := []; TestSuites := [];
               InitImportPaths := ["github.com/lib/pq";
                                   "github.com/go-sql-driver/mysql"] |}
          !! "github.com/go-sql-driver/mysql" = Some "_") as H2 by (by vm_compute).
  simpl. split; [done | split; [done |]].
  intros Hd. by specialize (Hd _ _ _ H1 H2).
Qed.

(** Suffixes in use. Three packages named [models]: the first keeps the name,
    the next two get [models0] and [models1]. *)
Example calcImportAliases_suffixes :
  let ctl p := {| ImportPath := p; PackageName := "models"; MethodSpecs := [] |} in
  let src := {| ControllerSpecs := [ctl "a/models"; ctl "b/models"; ctl "c/models"];
                TestSuites := []; InitImportPaths := [] |} in
  map (λ p, calcImportAliases src !! p) ["a/models"; "b/models"; "c/models"]
  = [Some "models"; Some "models0"; Some "models1"].
Proof. by vm_compute. Qed.

(** A package whose own name is a suffixed alias already given out does not
    keep its name, although it is the first package of that name. *)
Example calcImportAliases_name_taken :
  let ctl p n := {| ImportPath := p; PackageName := n; MethodSpecs := [] |} in
  let src := {| ControllerSpecs := [ctl "a/db" "db"; ctl "b/db" "db"; ctl "c/db0" "db0"];
                TestSuites := []; InitImportPaths := [] |} in
  map (λ p, calcImportAliases src !! p) ["a/db"; "b/db"; "c/db0"]
  = [Some "db"; Some "db0"; Some "db00"].
Proof. by vm_compute. Qed.

(** ** [getAppVersion] *)

Lemma getAppVersion_override (env : VcsEnv) :
  APP_VERSION env ≠ "" → getAppVersion env = Returns (APP_VERSION env).
Proof.
  intros Hv. unfold getAppVersion.
  destruct (String.eqb_spec (APP_VERSION env) ""); [done | reflexivity].
Qed.

Lemma getAppVersion_unset (env : VcsEnv) :
  APP_VERSION env = "" →
  getAppVersion env =
    match lookPathGit env with
    | None => Returns ""
    | Some _ =>
        match statGitDir env with
        | StatError e => if IsNotExist e then Returns "" else Panics
        | StatInfo false => Returns ""
        | StatInfo true =>
            if failed (gitDescribe env) then Returns ""
            else Returns ("git-" +:+ TrimSpace (output (gitDescribe env)))
        end
    end.
Proof.
  intros Hv. unfold getAppVersion. rewrite Hv. simpl.
  destruct (lookPathGit env); [| done].
  destruct (statGitDir env) as [[|]|e]; simpl; [done | done |].
  by destruct (IsNotExist e).
Qed.



(** C3, counterexample: a checkout ([.git] is a directory, and [git describe]
    would succeed there) on a machine without [git]. [APP_VERSION] is unset,
    the source is inside a version-controlled checkout, and the version is
    empty, not the describe output after ["git-"]. *)
Lemma getAppVersion_checkout_without_git :
  let env :=
    {| APP_VERSION := ""; lookPathGit := None; statGitDir := StatInfo true;
       gitDescribe := {| output := "v1.2-3-gabc123" +:+ String "010" "";
                         failed := false |} |} in
  APP_VERSION env = "" ∧ statGitDir env = StatInfo true
  ∧ getAppVersion env = Returns ""
  ∧ getAppVersion env ≠ Returns ("git-" +:+ TrimSpace (output (gitDescribe env))).
Proof. repeat split; by vm_compute. Qed.

(** Unless [os.Stat] fails with an error other than "does not exist",
    [getAppVersion] returns. *)
Lemma getAppVersion_returns (env : VcsEnv) :
  (∀ e, statGitDir env = StatError e → IsNotExist e = true) →
  ∃ version, getAppVersion env = Returns version.
Proof.
  intros Hstat. destruct (decide (APP_VERSION env = "")) as [Hv|Hv].
  - rewrite getAppVersion_unset by done.
    destruct (lookPathGit env); [| by eexists].
    destruct (statGitDir env) as [[|]|e] eqn:Hs.
    + destruct (failed (gitDescribe env)); by eexists.
    + by eexists.
    + rewrite (Hstat e) by done. by eexists.
  - rewrite getAppVersion_override by done. by eexists.
Qed.

(** A failing [git describe] degrades to the empty version. *)
Lemma getAppVersion_describe_fails (env : VcsEnv) :
  APP_VERSION env = "" → statGitDir env = StatInfo true →
  failed (gitDescribe env) = true → getAppVersion env = Returns "".
Proof.
  intros Hv Hs Hf. rewrite getAppVersion_unset, Hs, Hf by done.
  by destruct (lookPathGit env).
Qed.

(** When [os.Stat] fails with an error other than "does not exist", the
    information it returns is nil and [info.IsDir()] panics. *)
Lemma getAppVersion_stat_error (env : VcsEnv) (e : OsError) :
  APP_VERSION env = "" → is_Some (lookPathGit env) →
  statGitDir env = StatError e → IsNotExist e = false →
  getAppVersion env = Panics.
Proof.
  intros Hv [gitPath Hgit] Hs He.
  by rewrite getAppVersion_unset, Hgit, Hs, He.
Qed.

(** C4, the failing input: [APP_VERSION] is unset, [git] is installed, and
    the [.git] directory cannot be examined (permission denied).
    [getAppVersion] panics instead of returning the empty version. *)
Theorem getAppVersion_permission_denied_panics :
  getAppVersion
    {| APP_VERSION := ""; lookPathGit := Some "/usr/bin/git";
       statGitDir := StatError ErrPermission;
       gitDescribe := {| output := ""; failed := true |} |}
  = Panics.
Proof. reflexivity. Qed.

(** ** [ServeHTTP] *)


Lemma ServeHTTP_not_silenced hp flag r notify :
  ¬ silenced flag r →
  ServeHTTP hp flag r notify =
    match notify with
    | Some err =>
        ([EvNotify (Some err); EvRenderError err], CompareAndSwapInt32 flag 0 1)
    | None =>
        ([EvNotify None;
          if EqualFold (Upgrade r) "websocket"
          then EvProxyWebsocket (serverHost hp) else EvReverseProxy],
         CompareAndSwapInt32 flag 1 0)
    end.
Proof.
  intros Hns. unfold ServeHTTP.
  destruct ((0 <? flag)%Z && String.eqb (URLPath r) "/favicon.ico") eqn:Hc.
  - destruct Hns. apply andb_true_iff in Hc as [H1 H2]. split.
    + by apply Z.ltb_lt.
    + by apply String.eqb_eq.
  - destruct notify; [done |]. by destruct (EqualFold (Upgrade r) "websocket").
Qed.

(** C6. A request that is not silenced calls [Notify] first; when [Notify]
    returns an error, the harness renders that error and does nothing else:
    the request is forwarded neither by the reverse proxy nor through the
    WebSocket tunnel. *)
Theorem ServeHTTP_notify_first (hp : Harness) (flag : Z) (r : Request)
    (notify : option Error) :
  ¬ silenced flag r →
  (∃ tr, (ServeHTTP hp flag r notify).1 = EvNotify notify :: tr)
  ∧ ∀ err, notify = Some err →
      (ServeHTTP hp flag r notify).1 = [EvNotify (Some err); EvRenderError err]
      ∧ ¬ forwarded (ServeHTTP hp flag r notify).1.
Proof.
  intros Hns. rewrite ServeHTTP_not_silenced by done. split.
  - destruct notify; by eexists.
  - intros err ->. split; [done |].
    intros [H | [host H]]; simpl in H;
      repeat (apply elem_of_cons in H as [H | H]; [discriminate |]);
      by apply elem_of_nil in H.
Qed.

Lemma ServeHTTP_notify_first_witness :
  let hp := {| app := None; serverHost := "localhost:9001"; port := 9001 |} in
  let r := {| URLPath := "/"; Upgrade := "" |} in
  let err := genericCompileError in
  (ServeHTTP hp 0 r (Some err)).1 = [EvNotify (Some err); EvRenderError err].
Proof.
  simpl.
  assert (¬ silenced 0 {| URLPath := "/"; Upgrade := "" |}) as Hns
    by (intros [H _]; lia).
  exact (proj1 (proj2 (ServeHTTP_notify_first
                        {| app := None; serverHost := "localhost:9001";
                           port := 9001 |}
                        0%Z _ (Some genericCompileError) Hns) _ eq_refl)).
Defined.

Lemma CompareAndSwapInt32_set (flag : Z) :
  flag = 0%Z ∨ flag = 1%Z → CompareAndSwapInt32 flag 0 1 = 1%Z.
Proof. by intros [-> | ->]. Qed.

Lemma CompareAndSwapInt32_clear (flag : Z) :
  flag = 0%Z ∨ flag = 1%Z → CompareAndSwapInt32 flag 1 0 = 0%Z.
Proof. by intros [-> | ->]. Qed.

Lemma lastNotify_app (tr tr' : list Event) :
  lastNotify (tr ++ tr') =
    match lastNotify tr' with
    | Some res => Some res
    | None => lastNotify tr
    end.
Proof.
  induction tr as [|e tr IH]; simpl.
  - by destruct (lastNotify tr').
  - rewrite IH. by destruct (lastNotify tr').
Qed.

(** The flag after one request, from the call of [Notify] the request made,
    if it made one. *)
Lemma ServeHTTP_flag hp flag r notify :
  flag = 0%Z ∨ flag = 1%Z →
  (ServeHTTP hp flag r notify).2 =
    match lastNotify (ServeHTTP hp flag r notify).1 with
    | Some (Some _) => 1%Z
    | Some None => 0%Z
    | None => flag
    end.
Proof.
  intros Hflag. unfold ServeHTTP.
  destruct ((0 <? flag)%Z && String.eqb (URLPath r) "/favicon.ico"); [done |].
  destruct notify; simpl.
  - by apply CompareAndSwapInt32_set.
  - destruct (EqualFold (Upgrade r) "websocket"); simpl;
      by apply CompareAndSwapInt32_clear.
Qed.

Lemma serveAll_flag hp flag reqs :
  flag = 0%Z ∨ flag = 1%Z →
  (serveAll hp flag reqs).2 =
    match lastNotify (serveAll hp flag reqs).1 with
    | Some (Some _) => 1%Z
    | Some None => 0%Z
    | None => flag
    end.
Proof.
  revert flag. induction reqs as [|[r notify] reqs IH]; intros flag Hflag; [done |].
  simpl. pose proof (ServeHTTP_flag hp flag r notify Hflag) as H1.
  destruct (ServeHTTP hp flag r notify) as [tr flag1]. simpl in H1.
  assert (flag1 = 0%Z ∨ flag1 = 1%Z) as Hflag1.
  { rewrite H1. destruct (lastNotify tr) as [[?|]|]; auto. }
  specialize (IH flag1 Hflag1).
  destruct (serveAll hp flag1 reqs) as [tr' flag2]. simpl in *.
  rewrite lastNotify_app, IH.
  destruct (lastNotify tr') as [[?|]|]; [done | done |]. exact H1.
Qed.


(** A run: a broken build, a favicon probe, a page request that still sees the
    error, then the fixed build. *)
Example serveAll_run :
  let hp := {| app := None; serverHost := "localhost:9001"; port := 9001 |} in
  let page := {| URLPath := "/"; Upgrade := "" |} in
  let icon := {| URLPath := "/favicon.ico"; Upgrade := "" |} in
  let err := genericCompileError in
  serveAll hp 0 [(page, Some err); (icon, Some err); (page, Some err);
                 (page, None); (icon, None)]
  = ([EvNotify (Some err); EvRenderError err;
      EvNotify (Some err); EvRenderError err;
      EvNotify None; EvReverseProxy;
      EvNotify None; EvReverseProxy], 0%Z).
Proof. reflexivity. Qed.

(** ** [ServeHTTP] when requests overlap *)

Section overlapping_requests.
Variable hp : Harness.

Lemma serve_app (s1 s2 : list nat) (sv : Server) :
  serve hp (s1 ++ s2) sv =
    match serve hp s1 sv with
    | Some (sv1, tr1) =>
        match serve hp s2 sv1 with
        | Some (sv2, tr2) => Some (sv2, tr1 ++ tr2)
        | None => None
        end
    | None => None
    end.
Proof.
  revert sv. induction s1 as [|i s1 IH]; intros sv; simpl.
  - by destruct (serve hp s2 sv) as [[? ?]|].
  - destruct (serverStep hp i sv) as [[sv' act]|]; [| done].
    rewrite IH. destruct (serve hp s1 sv') as [[sv1 tr1]|]; [| done].
    by destruct (serve hp s2 sv1) as [[sv2 tr2]|].
Qed.

Lemma actionsOf_snoc (i j : nat) (a : Action) (tr : list (nat * Action)) :
  actionsOf i (tr ++ [(j, a)])
  = actionsOf i tr ++ (if decide (j = i) then [a] else []).
Proof.
  unfold actionsOf. rewrite omap_app. simpl. by destruct (decide (j = i)).
Qed.

Lemma lastUpdate_snoc (tr : list (nat * Action)) (j : nat) (a : Action) :
  lastUpdate (tr ++ [(j, a)])
  = match a with ActUpdate err => Some err | _ => lastUpdate tr end.
Proof.
  induction tr as [|ia tr IH]; simpl.
  - by destruct a.
  - rewrite IH. by destruct a.
Qed.

Lemma flagAfter_cases (tr : list (nat * Action)) :
  flagAfter tr = 0%Z ∨ flagAfter tr = 1%Z.
Proof. unfold flagAfter. destruct (lastUpdate tr) as [[?|]|]; auto. Qed.

(** A step of the trace is its last one, or a step of the trace before. *)
Lemma snoc_split {A} (l l1 l2 : list A) (x y : A) :
  l ++ [y] = l1 ++ x :: l2 →
  (l2 = [] ∧ l = l1 ∧ y = x) ∨ ∃ l2', l2 = l2' ++ [y] ∧ l = l1 ++ x :: l2'.
Proof.
  destruct l2 as [|z l2 _] using rev_ind.
  - intros [-> ->]%(app_inj_tail l l1). by left.
  - rewrite app_comm_cons, app_assoc. intros [-> ->]%app_inj_tail.
    right. by exists l2.
Qed.

(** What holds after every run: the flag is the one the updates left; the
    handlers keep their requests; each handler has made the steps that lead
    to where it stands; each favicon check read the flag of its moment. *)
Lemma serve_invariant (reqs : list (Request * option Error))
    (schedule : list nat) (sv : Server) (tr : list (nat * Action)) :
  serve hp schedule (arrivals reqs) = Some (sv, tr) →
  errorFlag sv = flagAfter tr
  ∧ (λ h, (request h, notifyResult h)) <$> handlers sv = reqs
  ∧ (∀ i h, handlers sv !! i = Some h →
       ∃ dropped,
         actionsOf i tr
         = stepsDone hp (request h) (notifyResult h) dropped (pc h)
         ∧ (dropped = true → URLPath (request h) = "/favicon.ico")
         ∧ (∀ e, pc h = PcUpdate e ∨ pc h = PcAnswer e → e = notifyResult h))
  ∧ (∀ tr1 i d tr2, tr = tr1 ++ (i, ActCheck d) :: tr2 →
       ∃ h, handlers sv !! i = Some h
            ∧ d = (0 <? flagAfter tr1)%Z
                  && String.eqb (URLPath (request h)) "/favicon.ico").
Proof.
  revert sv tr. induction schedule as [|j schedule IH] using rev_ind;
    intros sv tr.
  - intros [= <- <-]. simpl. split; [done |]. split; [| split].
    + clear. induction reqs as [|[r n] reqs IH]; simpl; [done | by f_equal].
    + intros i h (rn & H1 & H2)%list_lookup_fmap_Some. subst. exists false.
      repeat split; try done. by intros e [? | ?].
    + intros tr1 i d tr2 H. by destruct tr1.
  - rewrite serve_app.
    destruct (serve hp schedule (arrivals reqs)) as [[sv1 tr1]|]; [| done].
    destruct (IH sv1 tr1 eq_refl) as (Hflag & Hreqs & Hsteps & Hchecks).
    simpl. unfold serverStep.
    destruct (handlers sv1 !! j) as [h|] eqn:Hj; [| done].
    destruct (handlerStep hp (errorFlag sv1) h) as [[[pc' flag'] act]|] eqn:Hstep;
      [| done].
    intros [= <- <-]. simpl.
    destruct (Hsteps j h Hj) as (dropped & Hdone & Hdropped & Hres).
    assert (j < length (handlers sv1)) as Hlt by (by eapply lookup_lt_Some).
    split; [| split; [| split]].
    + (* the flag *)
      unfold flagAfter. rewrite lastUpdate_snoc.
      unfold handlerStep in Hstep. rewrite Hflag in Hstep.
      destruct (pc h) as [| |[e|]|e|]; simplify_eq; try done.
      * destruct (_ && _); by simplify_eq.
      * apply CompareAndSwapInt32_set, flagAfter_cases.
      * apply CompareAndSwapInt32_clear, flagAfter_cases.
    + (* the requests *)
      rewrite list_fmap_insert. simpl. rewrite Hreqs.
      apply list_insert_id. by rewrite <- Hreqs, list_lookup_fmap, Hj.
    + (* the steps of each handler *)
      intros i h' Hi. rewrite actionsOf_snoc.
      destruct (decide (j = i)) as [<-|Hne].
      * rewrite list_lookup_insert_eq in Hi by done. injection Hi as <-. simpl.
        rewrite Hdone. unfold handlerStep in Hstep.
        destruct (pc h) as [| |[e|]|e|] eqn:Hpc; simplify_eq; simpl.
        -- destruct (_ && _) eqn:Hc; simplify_eq.
           ++ exists true. split; [done |]. split; [| by intros e [? | ?]].
              intros _. apply andb_true_iff in Hc as [_ Hc]. by apply String.eqb_eq.
           ++ exists false. repeat split; try done. by intros e [? | ?].
        -- exists false. repeat split; try done. by intros e [[= <-] | ?].
        -- exists false. rewrite <- (Hres (Some e)) by auto.
           repeat split; try done. by intros e' [? | [= <-]].
        -- exists false. rewrite <- (Hres None) by auto.
           repeat split; try done. by intros e' [? | [= <-]].
        -- exists false. rewrite <- (Hres e) by auto.
           repeat split; try done. by intros e' [? | ?].
      * rewrite list_lookup_insert_ne in Hi by done. rewrite app_nil_r.
        by apply Hsteps.
    + (* the checks *)
      intros tr1' i d tr2 [(-> & -> & [= -> ->]) | (tr2' & -> & ->)]%snoc_split.
      * eexists. rewrite list_lookup_insert_eq by done. split; [done |]. simpl.
        unfold handlerStep in Hstep. rewrite Hflag in Hstep.
        destruct (pc h) as [| |[e|]|e|]; simplify_eq.
        by destruct (_ && _) eqn:Hc; simplify_eq.
      * destruct (Hchecks _ _ _ _ eq_refl) as (h' & Hi & ->).
        destruct (decide (j = i)) as [<-|Hne].
        -- eexists. rewrite list_lookup_insert_eq by done. split; [done |].
           simpl. by simplify_eq.
        -- exists h'. by rewrite list_lookup_insert_ne by done.
Qed.

(** A step of the handler that stands after the handlers [done]. *)
Lemma serverStep_middle (done rest : list Handler) (h : Handler) (flag : Z) :
  serverStep hp (length done) {| handlers := done ++ h :: rest; errorFlag := flag |}
  = match handlerStep hp flag h with
    | Some (pc', flag', act) =>
        Some ({| handlers :=
                   done ++ {| request := request h;
                              notifyResult := notifyResult h; pc := pc' |} :: rest;
                 errorFlag := flag' |}, act)
    | None => None
    end.
Proof.
  unfold serverStep. simpl. rewrite list_lookup_middle by done.
  destruct (handlerStep hp flag h) as [[[pc' flag'] act]|]; [| done].
  rewrite insert_app_r_alt by done. by rewrite Nat.sub_diag.
Qed.

Lemma events_app (tr1 tr2 : list (nat * Action)) :
  events (tr1 ++ tr2) = events tr1 ++ events tr2.
Proof. apply omap_app. Qed.

(** Served one at a time, the handlers do what [serveAll] says: each one runs
    [ServeHTTP] from the flag the one before left. *)
Lemma serve_oneAtATime (reqs : list (Request * option Error))
    (done : list Handler) (flag : Z) :
  ∃ tr,
    serve hp (oneAtATime hp flag (length done) reqs)
      {| handlers := done ++ (arriving <$> reqs); errorFlag := flag |}
    = Some ({| handlers := done ++ (returned <$> reqs);
               errorFlag := (serveAll hp flag reqs).2 |}, tr)
    ∧ events tr = (serveAll hp flag reqs).1.
Proof.
  revert done flag. induction reqs as [|[r n] reqs IH]; intros done flag.
  - by exists [].
  - cbn [oneAtATime serveAll fmap list_fmap]. rewrite serve_app.
    assert (∃ tr1,
              serve hp
                (if (0 <? flag)%Z && String.eqb (URLPath r) "/favicon.ico"
                 then [length done]
                 else [length done; length done; length done; length done])
                {| handlers := done ++ arriving (r, n) :: (arriving <$> reqs);
                   errorFlag := flag |}
              = Some ({| handlers := done ++ returned (r, n) :: (arriving <$> reqs);
                         errorFlag := (ServeHTTP hp flag r n).2 |}, tr1)
              ∧ events tr1 = (ServeHTTP hp flag r n).1) as (tr1 & -> & Hev1).
    { unfold ServeHTTP.
      destruct ((0 <? flag)%Z && String.eqb (URLPath r) "/favicon.ico") eqn:Hc.
      - cbn [serve]. rewrite serverStep_middle. unfold handlerStep. simpl.
        rewrite Hc. by eexists.
      - cbn [serve]. rewrite serverStep_middle. unfold handlerStep at 1. simpl.
        rewrite Hc. rewrite serverStep_middle. unfold handlerStep at 1. simpl.
        rewrite serverStep_middle. unfold handlerStep at 1. simpl.
        destruct n as [e|]; rewrite serverStep_middle; unfold handlerStep; simpl.
        + by eexists.
        + destruct (EqualFold (Upgrade r) "websocket"); by eexists. }
    destruct (ServeHTTP hp flag r n) as [etr flag1] eqn:HS. simpl in *.
    destruct (IH (done ++ [returned (r, n)]) flag1) as (tr2 & Hrun & Hev2).
    rewrite length_app, Nat.add_1_r, <- !app_assoc in Hrun. simpl in Hrun.
    rewrite Hrun. destruct (serveAll hp flag1 reqs) as [etr' flag2]. simpl in *.
    exists (tr1 ++ tr2). split; [done |]. by rewrite events_app, Hev1, Hev2.
Qed.

End overlapping_requests.

(** C7 (as amended). Whatever the interleaving of the handlers, starting with
    the flag clear:
    - the flag is set exactly when the latest update of the flag was made by
      a handler whose own call of [Notify] had returned an error, and clear
      when that call had succeeded or no handler has updated the flag yet;
    - every handler follows its script: the favicon check, then either the
      early return, for a favicon request only, or [Notify], the update of
      the flag after what this call of [Notify] returned, and the error page
      or the forwarding; a handler that has returned has made all these
      steps;
    - a request is dropped by its check exactly when it asks for
      [/favicon.ico] and the flag is set at that moment.
    When the requests are served one at a time, the handlers run as
    [serveAll] says, and then the flag is set exactly when the most recent
    call of [Notify] returned an error. *)
Theorem lastRequestHadError_tracks_update (hp : Harness)
    (reqs : list (Request * option Error)) (schedule : list nat)
    (sv : Server) (tr : list (nat * Action)) :
  serve hp schedule (arrivals reqs) = Some (sv, tr) →
  ((0 < errorFlag sv)%Z ↔ ∃ err, lastUpdate tr = Some (Some err))
  ∧ (∀ i r notify, reqs !! i = Some (r, notify) →
       ∃ dropped,
         actionsOf i tr `prefix_of` script hp r notify dropped
         ∧ (dropped = true → URLPath r = "/favicon.ico")
         ∧ ∀ h, handlers sv !! i = Some h → pc h = PcDone →
                actionsOf i tr = script hp r notify dropped)
  ∧ (∀ tr1 i r notify dropped tr2,
       tr = tr1 ++ (i, ActCheck dropped) :: tr2 → reqs !! i = Some (r, notify) →
       dropped = true
       ↔ (∃ err, lastUpdate tr1 = Some (Some err)) ∧ URLPath r = "/favicon.ico")
  ∧ ∃ sv1 tr1,
      serve hp (oneAtATime hp 0 0 reqs) (arrivals reqs) = Some (sv1, tr1)
      ∧ handlers sv1 = returned <$> reqs
      ∧ events tr1 = (serveAll hp 0 reqs).1
      ∧ errorFlag sv1 = (serveAll hp 0 reqs).2
      ∧ ((0 < errorFlag sv1)%Z
         ↔ ∃ err, lastNotify (events tr1) = Some (Some err)).
Proof.
  intros Hrun.
  destruct (serve_invariant hp reqs schedule sv tr Hrun)
    as (Hflag & Hreqs & Hsteps & Hchecks).
  assert (∀ t, (0 < flagAfter t)%Z ↔ ∃ err, lastUpdate t = Some (Some err))
    as Hset.
  { intros t. unfold flagAfter. destruct (lastUpdate t) as [[e|]|]; split;
      try lia; try (by intros [? ?]). intros _. by exists e. }
  assert (∀ i r notify, reqs !! i = Some (r, notify) →
            ∃ h, handlers sv !! i = Some h ∧ request h = r
                 ∧ notifyResult h = notify) as Hlook.
  { intros i r notify Hi. rewrite <- Hreqs in Hi.
    apply list_lookup_fmap_Some in Hi as (h & Hh & Hi).
    exists h. by simplify_eq. }
  split; [| split; [| split]].
  - rewrite Hflag. apply Hset.
  - intros i r notify Hi. destruct (Hlook i r notify Hi) as (h & Hh & <- & <-).
    destruct (Hsteps i h Hh) as (dropped & Hdone & Hdropped & _).
    exists (match pc h with PcDone => dropped | _ => false end).
    rewrite Hdone. split; [| split].
    + destruct (pc h); simpl; [by eexists..|]. exists []. by rewrite app_nil_r.
    + destruct (pc h); try done.
    + intros h' Hh' Hpc. rewrite Hh in Hh'. injection Hh' as <-.
      by rewrite Hpc.
  - intros tr1 i r notify dropped tr2 Htr Hi.
    destruct (Hlook i r notify Hi) as (h & Hh & <- & <-).
    destruct (Hchecks tr1 i dropped tr2 Htr) as (h' & Hh' & ->).
    rewrite Hh in Hh'. injection Hh' as <-.
    rewrite andb_true_iff, Z.ltb_lt, String.eqb_eq. by rewrite Hset.
  - destruct (serve_oneAtATime hp reqs [] 0) as (tr1 & Hone & Hev).
    eexists _, tr1. split; [exact Hone |]. split; [done |]. split; [done |].
    split; [done |]. simpl. rewrite Hev, serveAll_flag by auto.
    destruct (lastNotify (serveAll hp 0 reqs).1) as [[e|]|]; split;
      try lia; try (by intros [? ?]). intros _. by exists e.
Qed.

(** A failed rebuild and a favicon probe that overlap: the probe is checked
    after the first handler has set the flag, and is dropped. *)
Lemma lastRequestHadError_tracks_update_witness :
  ∃ sv tr,
    serve servingHarness probeSchedule (arrivals probeRequests) = Some (sv, tr)
    ∧ errorFlag sv = 1%Z
    ∧ actionsOf 1 tr = [ActCheck true]
    ∧ ((0 < errorFlag sv)%Z ↔ ∃ err, lastUpdate tr = Some (Some err)).
Proof.
  eexists _, _. split; [reflexivity |]. split; [reflexivity |].
  split; [reflexivity |].
  exact (proj1 (lastRequestHadError_tracks_update servingHarness probeRequests
                  probeSchedule _ _ eq_refl)).
Defined.

(** C7, counterexample: two requests overlap. The first handler's [Notify]
    returns an error; before it updates the flag, the second handler calls
    [Notify], which succeeds, finds the flag clear and leaves it; then the
    first handler sets the flag. The most recent call of [Notify] succeeded
    and the flag is set. *)
Lemma lastRequestHadError_stale_under_overlap :
  let run := serve servingHarness overlapSchedule (arrivals overlapRequests) in
  (λ st, lastNotify (events st.2)) <$> run = Some (Some None)
  ∧ (λ st, errorFlag st.1) <$> run = Some 1%Z.
Proof. split; reflexivity. Qed.

(** ** The matcher *)

Section regexp_facts.
Import Regexp.
Implicit Types (p : ascii → bool) (a s rest : string) (c : captures) (k : cont).

(** [take] undoes a concatenation. *)
Lemma take_app a rest : take (String.length a) (a +:+ rest) = a.
Proof. induction a as [|x a IH]; simpl; [by destruct rest | by f_equal]. Qed.

(** What was consumed between [a +:+ rest] and [rest] is [a]. *)
Lemma consumed_app a rest : consumed (a +:+ rest) rest = a.
Proof.
  unfold consumed. rewrite Str.app_length.
  replace (String.length a + String.length rest - String.length rest)
    with (String.length a) by lia.
  apply take_app.
Qed.

Lemma bolAfter_app bol a b : bolAfter bol (a +:+ b) = bolAfter (bolAfter bol a) b.
Proof. revert bol. induction a as [|x a IH]; intros bol; simpl; [done | apply IH]. Qed.

(** A literal is stripped from a text that starts with it. *)
Lemma stripPrefix_app l bol s :
  stripPrefix l bol (l +:+ s) = Some (bolAfter bol l, s).
Proof.
  revert bol. induction l as [|x l IH]; intros bol; simpl; [done |].
  rewrite Ascii.eqb_refl. apply IH.
Qed.

Lemma exec_Lit l bol s c k :
  exec (Lit l) bol (l +:+ s) c k = k (bolAfter bol l) s c.
Proof. simpl. by rewrite stripPrefix_app. Qed.

(** A greedy repetition takes the whole run [a] when the text stops the run
    there and the rest of the pattern matches after it. *)
Lemma repGreedy_max p min bol a s c k res :
  allChars p a = true → stopsAt p s = true → min ≤ String.length a →
  k (bolAfter bol a) s c = Some res →
  repGreedy p min bol (a +:+ s) c k = Some res.
Proof.
  revert min bol. induction a as [|x a IH]; intros min bol Hall Hstop Hmin Hk.
  - simpl in *. assert (min = 0) as -> by lia.
    destruct s as [|y s]; simpl in *; [done |].
    apply negb_true_iff in Hstop. by rewrite Hstop.
  - simpl in *. apply andb_true_iff in Hall as [Hx Hall]. rewrite Hx.
    by rewrite (IH (pred min) (isNewline x)) by (done || lia).
Qed.

(** A greedy repetition fails when the rest of the pattern fails after every
    part of the run it can take. *)
Lemma repGreedy_fails p min bol a s c k :
  allChars p a = true → stopsAt p s = true →
  (∀ a1 a2, a = a1 +:+ a2 → k (bolAfter bol a1) (a2 +:+ s) c = None) →
  repGreedy p min bol (a +:+ s) c k = None.
Proof.
  revert min bol. induction a as [|x a IH]; intros min bol Hall Hstop Hk.
  - simpl. specialize (Hk "" "" eq_refl). simpl in Hk.
    destruct s as [|y s]; simpl in *.
    + by destruct min.
    + apply negb_true_iff in Hstop. rewrite Hstop. by destruct min.
  - simpl in *. apply andb_true_iff in Hall as [Hx Hall]. rewrite Hx.
    rewrite (IH (pred min) (isNewline x)); [| done | done |].
    + specialize (Hk "" (String x a) eq_refl). simpl in Hk. by destruct min.
    + intros a1 a2 ->. apply (Hk (String x a1) a2). reflexivity.
Qed.



End regexp_facts.

(** ** The missing-package pattern *)

(** A match that starts at the current position is the leftmost one. *)
Lemma findFrom_here r bol s c :
  Regexp.matchHere r bol s = Some c → Regexp.findFrom r bol s = Some c.
Proof. intros H. destruct s; simpl; by rewrite H. Qed.

Lemma length_nonempty (s : string) : s ≠ "" → 1 ≤ String.length s.
Proof. destruct s; [done | simpl; lia]. Qed.

(** A report of a missing package at the start of the output is found, and
    group 1 is the package. *)
Lemma missingPackage_cannotFind (pkgName rest : string) :
  pkgName ≠ "" → allChars (Regexp.noneOf [dquote]) pkgName = true →
  missingPackage (cannotFind pkgName +:+ rest) = Some pkgName.
Proof.
  intros Hne Hall. unfold missingPackage, Regexp.FindSubmatch.
  rewrite (findFrom_here _ _ _ [Some (cannotFind pkgName); Some pkgName]);
    [reflexivity |].
  unfold Regexp.matchHere, importErrorPattern, cannotFind.
  cbn [Regexp.exec Regexp.numSubexp]. simpl. rewrite Str.app_assoc. simpl.
  apply repGreedy_max; [done | done | by apply length_nonempty |].
  simpl. rewrite consumed_app.
  match goal with |- context [Regexp.consumed ?X rest] =>
    replace X with (cannotFind pkgName +:+ rest)
      by (unfold cannotFind; simpl; by rewrite Str.app_assoc)
  end.
  by rewrite consumed_app.
Qed.

Example missingPackage_sample :
  missingPackage
    ("app/controllers/app.go:4:2: " +:+ cannotFind "github.com/lib/pq"
       +:+ " in any of:")
  = Some "github.com/lib/pq".
Proof. by vm_compute. Qed.

(** ** The loop of [Build] *)

Lemma fetched_retry flags pkgName tr :
  fetched (ExecGoBuild flags :: ExecGoGet pkgName :: tr) = pkgName :: fetched tr.
Proof. reflexivity. Qed.

Lemma builds_retry flags pkgName tr :
  builds (ExecGoBuild flags :: ExecGoGet pkgName :: tr) = S (builds tr).
Proof. reflexivity. Qed.

Section build_loop.
Variables (env : BuildEnv) (buildFlags : list string).

Let compileError (i : nat) : Error :=
  newCompileError (errorEnv env) (output (goBuild env i)).

(** One turn of the loop, by cases. *)
Lemma buildLoop_unfold fuel i gotten :
  buildLoop (S fuel) env buildFlags i gotten =
    match getAppVersion (vcsEnv env i) with
    | Returns appVersion =>
        let buildCmd := ExecGoBuild (buildArgs env buildFlags appVersion) in
        if failed (goBuild env i) then
          match missingPackage (output (goBuild env i)) with
          | None => Some ([buildCmd], Returns (None, Some (compileError i)))
          | Some pkgName =>
              if decide (pkgName ∈ gotten)
              then Some ([buildCmd], Returns (None, Some (compileError i)))
              else if failed (goGet env i)
              then Some ([buildCmd; ExecGoGet pkgName],
                         Returns (None, Some (compileError i)))
              else
                match buildLoop fuel env buildFlags (S i) ({[pkgName]} ∪ gotten) with
                | Some (tr, res) => Some (buildCmd :: ExecGoGet pkgName :: tr, res)
                | None => None
                end
          end
        else Some ([buildCmd], Returns (Some (NewApp (binName env)), None))
    | Exits => Some ([], Exits)
    | Panics => Some ([], Panics)
    end.
Proof.
  simpl. unfold missingPackage, compileError.
  destruct (getAppVersion (vcsEnv env i)); [| done | done].
  destruct (failed (goBuild env i)); [| done]. simpl.
  by destruct (Regexp.FindSubmatch importErrorPattern (output (goBuild env i))).
Qed.

(** When the loop returns, it returns an [App] bound to the binary and no
    error, or no [App] and an error. *)
Lemma buildLoop_results fuel i gotten tr app' err :
  buildLoop fuel env buildFlags i gotten = Some (tr, Returns (app', err)) →
  (app' = Some (NewApp (binName env)) ∧ err = None)
  ∨ (app' = None ∧ is_Some err).
Proof.
  revert i gotten tr. induction fuel as [|fuel IH]; intros i gotten tr; [done |].
  rewrite buildLoop_unfold.
  destruct (getAppVersion (vcsEnv env i)); [| done | done]. simpl.
  destruct (failed (goBuild env i)); [| intros [= <- <- <-]; by left].
  destruct (missingPackage (output (goBuild env i))) as [pkgName|];
    [| intros [= <- <- <-]; right; eauto].
  destruct (decide (pkgName ∈ gotten)); [intros [= <- <- <-]; right; eauto |].
  destruct (failed (goGet env i)); [intros [= <- <- <-]; right; eauto |].
  destruct (buildLoop fuel env buildFlags (S i) ({[pkgName]} ∪ gotten))
    as [[tr' res]|] eqn:Hloop; [| done].
  intros [= <- ->]. by apply (IH _ _ _ Hloop).
Qed.

(** No package is fetched twice, and none that was already attempted. *)
Lemma buildLoop_fetched fuel i gotten tr res :
  buildLoop fuel env buildFlags i gotten = Some (tr, res) →
  NoDup (fetched tr) ∧ ∀ pkgName, pkgName ∈ fetched tr → pkgName ∉ gotten.
Proof.
  revert i gotten tr. induction fuel as [|fuel IH]; intros i gotten tr; [done |].
  rewrite buildLoop_unfold.
  assert (NoDup (@nil string) ∧ ∀ pkgName, pkgName ∈ @nil string → pkgName ∉ gotten)
    as Hnil by (split; [constructor | by intros ? ?%elem_of_nil]).
  destruct (getAppVersion (vcsEnv env i)); [| by intros [= <- <-]..]. simpl.
  destruct (failed (goBuild env i)); [| by intros [= <- <-]].
  destruct (missingPackage (output (goBuild env i))) as [pkgName|];
    [| by intros [= <- <-]].
  destruct (decide (pkgName ∈ gotten)) as [|Hnew]; [by intros [= <- <-] |].
  destruct (failed (goGet env i)).
  { intros [= <- <-]. simpl. split; [apply NoDup_singleton |].
    by intros ? ->%list_elem_of_singleton. }
  destruct (buildLoop fuel env buildFlags (S i) ({[pkgName]} ∪ gotten))
    as [[tr' res']|] eqn:Hloop; [| done].
  intros [= <- <-]. destruct (IH _ _ _ Hloop) as [Hnd Hfresh]. simpl. split.
  - constructor; [| done]. intros Hin. apply (Hfresh _ Hin).
    by apply elem_of_union_l, elem_of_singleton.
  - intros q [-> | Hq]%elem_of_cons; [done |].
    intros Hg. by apply (Hfresh _ Hq), elem_of_union_r.
Qed.

(** More fuel does not change a result. *)
Lemma buildLoop_fuel_mono fuel fuel' i gotten r :
  fuel ≤ fuel' → buildLoop fuel env buildFlags i gotten = Some r →
  buildLoop fuel' env buildFlags i gotten = Some r.
Proof.
  revert fuel' i gotten r.
  induction fuel as [|fuel IH]; intros fuel' i gotten r Hle; [done |].
  destruct fuel' as [|fuel']; [lia |].
  assert (fuel ≤ fuel') as Hle' by lia. rewrite !buildLoop_unfold.
  destruct (getAppVersion (vcsEnv env i)); [| done | done]. simpl.
  destruct (failed (goBuild env i)); [| done].
  destruct (missingPackage (output (goBuild env i))) as [pkgName|]; [| done].
  destruct (decide (pkgName ∈ gotten)); [done |].
  destruct (failed (goGet env i)); [done |].
  destruct (buildLoop fuel env buildFlags (S i) ({[pkgName]} ∪ gotten))
    as [r'|] eqn:Hloop; [| done].
  by rewrite (IH fuel' _ _ r' Hle' Hloop).
Qed.

(** If the builds can only report packages of the finite set [names], the
    loop returns after at most as many fetches as [names] has packages not
    yet attempted. *)
Lemma buildLoop_terminates (names : gset string) n i gotten :
  (∀ j pkgName, failed (goBuild env j) = true →
                missingPackage (output (goBuild env j)) = Some pkgName →
                pkgName ∈ names) →
  gotten ⊆ names → size names ≤ n + size gotten →
  ∃ tr res, buildLoop (S n) env buildFlags i gotten = Some (tr, res)
            ∧ length (fetched tr) ≤ n ∧ builds tr ≤ S n.
Proof.
  intros Hnames. revert i gotten.
  induction n as [|n IH]; intros i gotten Hsub Hsize; rewrite buildLoop_unfold.
  - destruct (getAppVersion (vcsEnv env i));
      [| by eexists _, _; split; [done | unfold builds; simpl; lia]..]. cbv zeta.
    destruct (failed (goBuild env i)) eqn:Hfail;
      [| by eexists _, _; split; [done | unfold builds; simpl; lia]].
    destruct (missingPackage (output (goBuild env i))) as [pkgName|] eqn:Hm;
      [| by eexists _, _; split; [done | unfold builds; simpl; lia]].
    destruct (decide (pkgName ∈ gotten)) as [|Hnew];
      [by eexists _, _; split; [done | unfold builds; simpl; lia] |].
    exfalso. apply Hnew. apply Hnames in Hm; [| done].
    assert (names = gotten) as ->; [| done].
    symmetry. apply set_subseteq_size_eq; [done | lia].
  - destruct (getAppVersion (vcsEnv env i));
      [| by eexists _, _; split; [done | unfold builds; simpl; lia]..]. cbv zeta.
    destruct (failed (goBuild env i)) eqn:Hfail;
      [| by eexists _, _; split; [done | unfold builds; simpl; lia]].
    destruct (missingPackage (output (goBuild env i))) as [pkgName|] eqn:Hm;
      [| by eexists _, _; split; [done | unfold builds; simpl; lia]].
    destruct (decide (pkgName ∈ gotten)) as [|Hnew];
      [by eexists _, _; split; [done | unfold builds; simpl; lia] |].
    destruct (failed (goGet env i));
      [by eexists _, _; split; [done | unfold builds; simpl; lia] |].
    apply Hnames in Hm; [| done].
    destruct (IH (S i) ({[pkgName]} ∪ gotten)) as (tr & res & Hloop & Hf & Hb).
    { intros q [->%elem_of_singleton | Hq]%elem_of_union; [done | by apply Hsub]. }
    { rewrite size_union, size_singleton; [lia |].
      intros q ->%elem_of_singleton. done. }
    rewrite Hloop. eexists _, _. split; [done |].
    rewrite fetched_retry, builds_retry. simpl. lia.
Qed.

End build_loop.

(** ** [Build] *)

(** [Build] is its loop, after the analysis and the code generation. *)
Lemma Build_inv fuel env buildFlags tr res :
  Build fuel env buildFlags = Some (tr, res) →
  (∃ compileError, processSource env = inr compileError ∧ tr = []
                   ∧ res = Returns (None, Some compileError))
  ∨ (res = Exits ∧ fetched tr = [] ∧ builds tr = 0)
  ∨ (∃ generated tr', tr = generated ++ tr' ∧ fetched tr = fetched tr'
                      ∧ builds tr = builds tr'
                      ∧ buildLoop fuel env buildFlags 0 ∅ = Some (tr', res)).
Proof.
  unfold Build. destruct (processSource env) as [sourceInfo|compileError].
  - destruct (genSourceOk env); simpl.
    2: { intros [= <- <-]. right; left. by repeat split. }
    destruct (lookPathGo env).
    2: { intros [= <- <-]. right; left. by repeat split. }
    destruct (importFound env); simpl.
    2: { intros [= <- <-]. right; left. by repeat split. }
    destruct (buildLoop fuel env buildFlags 0 ∅) as [[tr' res']|] eqn:Hloop;
      [| done].
    intros [= <- <-]. right; right. eexists [_; _], tr'.
    split; [reflexivity |]. by repeat split.
  - intros [= <- <-]. left. by exists compileError.
Qed.

Lemma Build_of_loop fuel env buildFlags tr res :
  (∃ sourceInfo, processSource env = inl sourceInfo) → genSourceOk env = true →
  is_Some (lookPathGo env) → importFound env = true →
  buildLoop fuel env buildFlags 0 ∅ = Some (tr, res) →
  ∃ generated, Build fuel env buildFlags = Some (generated ++ tr, res)
               ∧ fetched (generated ++ tr) = fetched tr
               ∧ builds (generated ++ tr) = builds tr.
Proof.
  intros [sourceInfo Hsrc] Hgen [goPath Hgo] Himp Hloop. unfold Build.
  rewrite Hsrc, Hgen, Hgo, Himp, Hloop. simpl. by eexists [_; _].
Qed.

(** The two results of [Build]. *)
Lemma Build_app_or_error fuel env buildFlags tr app' err :
  Build fuel env buildFlags = Some (tr, Returns (app', err)) →
  (app' = Some (NewApp (binName env)) ∧ err = None)
  ∨ (app' = None ∧ is_Some err).
Proof.
  intros HB.
  apply Build_inv in HB
    as [(e & _ & _ & [= -> ->]) | [[[=] _] | (gen & tr' & _ & _ & _ & Hloop)]].
  - right. eauto.
  - by apply buildLoop_results in Hloop.
Qed.

(** C10. Whenever [Build] returns, it returns either an [App] and no error or
    no [App] and an error; the [App] is the one bound to the binary path. *)
Theorem Build_results_exclusive (fuel : nat) (env : BuildEnv)
    (buildFlags : list string) (tr : list Exec) (app' : option App)
    (err : option Error) :
  Build fuel env buildFlags = Some (tr, Returns (app', err)) →
  (is_Some app' ↔ err = None)
  ∧ (is_Some app' ∨ is_Some err)
  ∧ (∀ a, app' = Some a → a = NewApp (binName env)
                          ∧ BinaryPath a = binName env).
Proof.
  intros HB.
  apply Build_app_or_error in HB as [[-> ->] | [-> [e ->]]].
  - split; [done |]. split; [left; eauto |]. by intros ? [= <-].
  - split; [split; [by intros [? ?] | done] |]. split; [right; eauto | done].
Qed.

(** A successful build, and a build that fails on a compile error. *)
Lemma Build_results_exclusive_witness :
  ∃ tr app' err,
    Build 1 quietEnv [] = Some (tr, Returns (app', err))
    ∧ app' = Some (NewApp (binName quietEnv)) ∧ err = None
    ∧ (is_Some app' ↔ err = None).
Proof.
  eexists _, _, _. split; [reflexivity |]. split; [reflexivity |].
  split; [reflexivity |].
  exact (proj1 (Build_results_exclusive 1 quietEnv [] _ _ _ eq_refl)).
Defined.

Example Build_compile_error :
  let env := withCommands
               (λ _, {| output := "app/controllers/app.go:12: undefined: x";
                        failed := true |})
               (goGet quietEnv) in
  ∃ tr err, Build 1 env [] = Some (tr, Returns (None, Some err))
            ∧ Path err = "app/controllers/app.go" ∧ Line err = 12%Z
            ∧ Description err = "undefined: x".
Proof. eexists _, _. split; [by vm_compute | by vm_compute]. Qed.

(** C2 (as amended). In every environment, whenever [Build] ends it has run
    [go get] at most once per package; a failed build whose output reports a
    package already attempted, or whose [go get] fails, ends the loop with a
    compile error and no [App]; and if the packages the failing builds
    report all lie in a finite set [names], [Build] ends after at most
    [size names] fetches and [size names + 1] builds. *)
Theorem Build_retry_bounded (env : BuildEnv) (buildFlags : list string) :
  (∀ fuel tr res, Build fuel env buildFlags = Some (tr, res) → NoDup (fetched tr))
  ∧ (∀ fuel i gotten appVersion pkgName,
       getAppVersion (vcsEnv env i) = Returns appVersion →
       failed (goBuild env i) = true →
       missingPackage (output (goBuild env i)) = Some pkgName →
       pkgName ∈ gotten ∨ failed (goGet env i) = true →
       ∃ tr, buildLoop (S fuel) env buildFlags i gotten
             = Some (tr, Returns (None,
                                  Some (newCompileError (errorEnv env)
                                          (output (goBuild env i)))))
             ∧ builds tr = 1 ∧ length (fetched tr) ≤ 1)
  ∧ (∀ names : gset string,
       (∀ i pkgName, failed (goBuild env i) = true →
                     missingPackage (output (goBuild env i)) = Some pkgName →
                     pkgName ∈ names) →
       ∃ tr res, (∀ fuel, size names < fuel →
                          Build fuel env buildFlags = Some (tr, res))
                 ∧ length (fetched tr) ≤ size names
                 ∧ builds tr ≤ S (size names)).
Proof.
  split; [| split].
  - intros fuel tr res HB.
    apply Build_inv in HB
      as [(e & _ & -> & _) | [(_ & -> & _) | (gen & tr' & _ & -> & _ & Hloop)]];
      [constructor | constructor |].
    by apply buildLoop_fetched in Hloop as [Hnd _].
  - intros fuel i gotten appVersion pkgName Hv Hfail Hm Hstop.
    rewrite buildLoop_unfold, Hv, Hfail, Hm. cbv zeta.
    set (res := Returns (@None App, Some (newCompileError (errorEnv env)
                                            (output (goBuild env i))))).
    assert (∀ tr, builds tr = 1 → length (fetched tr) ≤ 1 →
              ∃ tr', Some (tr, res) = Some (tr', res)
                     ∧ builds tr' = 1 ∧ length (fetched tr') ≤ 1) as Hret
      by (intros tr ? ?; by exists tr).
    destruct (decide (pkgName ∈ gotten)) as [|Hnew];
      [apply Hret; [done | unfold fetched; simpl; lia] |].
    destruct Hstop as [? | Hget]; [done |]. rewrite Hget.
    apply Hret; [done | unfold fetched; simpl; lia].
  - intros names Hnames.
    destruct (buildLoop_terminates env buildFlags names (size names) 0 ∅ Hnames)
      as (tr & res & Hloop & Hf & Hb).
    { apply empty_subseteq. }
    { lia. }
    assert (∀ (tr0 : list Exec) (res0 : outcome (option App * option Error)),
              fetched tr0 = [] → builds tr0 = 0 →
              ∃ tr1 res1, (∀ fuel, size names < fuel → Some (tr0, res0) = Some (tr1, res1))
                          ∧ length (fetched tr1) ≤ size names
                          ∧ builds tr1 ≤ S (size names)) as Hearly.
    { intros tr0 res0 Hf0 Hb0. exists tr0, res0.
      rewrite Hf0, Hb0. simpl. repeat split; lia. }
    unfold Build.
    destruct (processSource env) as [sourceInfo|compileError];
      [| by apply Hearly].
    destruct (genSourceOk env); simpl; [| by apply Hearly].
    destruct (lookPathGo env); [| by apply Hearly].
    destruct (importFound env); simpl; [| by apply Hearly].
    eexists (GenSource _ _ _ :: GenSource _ _ _ :: tr), res.
    split; [| exact (conj Hf Hb)].
    intros fuel Hfuel.
    by rewrite (buildLoop_fuel_mono _ _ _ fuel _ _ _ Hfuel Hloop).
Qed.

(** The same missing package reported by every build: it is fetched once, the
    second report ends the loop with an error. *)
Lemma Build_retry_bounded_witness :
  ∃ tr err,
    (∀ fuel, 1 < fuel → Build fuel stuckEnv [] = Some (tr, Returns (None, Some err)))
    ∧ fetched tr = ["github.com/lib/pq"] ∧ builds tr = 2.
Proof.
  destruct (proj2 (proj2 (Build_retry_bounded stuckEnv []))
              {["github.com/lib/pq"]}) as (tr & res & HB & _).
  { intros i pkgName _. by intros [= <-]%(inj Some); apply elem_of_singleton. }
  specialize (HB 2 ltac:(rewrite size_singleton; lia)) as HB2.
  vm_compute in HB2. injection HB2 as <- <-.
  eexists _, _. split; [| split].
  - intros fuel Hfuel. apply HB. rewrite size_singleton. lia.
  - reflexivity.
  - reflexivity.
Defined.

(** *** A build that never ends *)

Lemma chainPkg_length i : String.length (chainPkg i) = S i.
Proof. induction i as [|i IH]; simpl; [done | by rewrite IH]. Qed.

Lemma chainPkg_inj i j : chainPkg i = chainPkg j → i = j.
Proof.
  intros H. apply (f_equal String.length) in H.
  rewrite !chainPkg_length in H. lia.
Qed.

Lemma chainPkg_nonempty i : chainPkg i ≠ "".
Proof. by destruct i. Qed.

Lemma chainPkg_chars i : allChars (Regexp.noneOf [dquote]) (chainPkg i) = true.
Proof. induction i as [|i IH]; simpl; [done | exact IH]. Qed.

Lemma chainEnv_missing i :
  missingPackage (output (goBuild chainEnv i)) = Some (chainPkg i).
Proof.
  simpl. rewrite <- (Str.app_nil_r (cannotFind (chainPkg i))).
  apply missingPackage_cannotFind; [apply chainPkg_nonempty | apply chainPkg_chars].
Qed.

(** Each turn of the loop asks for a package not attempted before, so the
    loop goes on. *)
Lemma chainEnv_loop fuel i (gotten : gset string) :
  (∀ j, chainPkg j ∈ gotten → j < i) →
  buildLoop fuel chainEnv [] i gotten = None.
Proof.
  revert i gotten. induction fuel as [|fuel IH]; intros i gotten Hold; [done |].
  rewrite buildLoop_unfold, chainEnv_missing.
  change (getAppVersion (vcsEnv chainEnv i)) with (Returns "1.0").
  change (failed (goBuild chainEnv i)) with true.
  change (failed (goGet chainEnv i)) with false. cbv zeta iota beta.
  destruct (decide (chainPkg i ∈ gotten)) as [Hin|_].
  { apply Hold in Hin. lia. }
  rewrite IH; [done |].
  intros j [->%elem_of_singleton%chainPkg_inj | Hj%Hold]%elem_of_union; lia.
Qed.

(** C2, counterexample: when every build reports one more missing package and
    every [go get] succeeds, [Build] never returns: the set of attempted
    packages bounds the loop only if the packages reported are finitely
    many. *)
Lemma Build_chain_never_returns : neverReturns chainEnv [].
Proof.
  intros fuel. unfold Build.
  change (processSource chainEnv)
    with (@inl SourceInfo Error
            {| ControllerSpecs := []; TestSuites := []; InitImportPaths := [] |}).
  change (genSourceOk chainEnv) with true.
  change (lookPathGo chainEnv) with (Some "/usr/local/go/bin/go").
  change (importFound chainEnv) with true.
  cbv zeta iota beta. simpl negb. cbv iota.
  rewrite chainEnv_loop; [done |]. by intros j ?%elem_of_empty.
Qed.

(** ** [Refresh] *)

(** Killing the harness's [App] leaves no child alive. *)
Lemma Kill_owned (h : Harness) (ps : Procs) :
  ownsChildren h ps →
  running (match app h with Some a => Kill a ps | None => ps end) = ∅.
Proof.
  intros Hown. apply set_eq. intros pid. split; [| by intros ?%elem_of_empty].
  intros Hpid. exfalso.
  assert (pid ∈ running ps) as Hrun.
  { destruct (app h) as [a|]; [| done]. unfold Kill in Hpid.
    destruct (process a); [| done]. simpl in Hpid.
    by apply elem_of_difference in Hpid as [? _]. }
  destruct (Hown pid Hrun) as (a & Ha & Hp). rewrite Ha in Hpid.
  unfold Kill in Hpid. rewrite Hp in Hpid. simpl in Hpid.
  apply elem_of_difference in Hpid as [_ Hne]. by apply Hne, elem_of_singleton.
Qed.

Lemma Kill_nextPid (a : App) (ps : Procs) : nextPid (Kill a ps) = nextPid ps.
Proof. unfold Kill. by destruct (process a). Qed.

(** C8. Whenever [Build] returns, [Refresh] returns, and its trace starts
    with the kill of the previous [App], if there was one, followed by the
    build. If the build failed, [Refresh] returns the build's error, starts
    nothing, and no child is running. If the build succeeded, [Refresh] starts
    the new binary on the harness's port: when the start fails it returns the
    error ["App failed to start up"] with the start's message and no child is
    running; when the start succeeds it returns no error and exactly one child
    is running, the new one. Either way the harness still owns every live
    child. *)
Theorem Refresh_kills_then_builds (fuel : nat) (h : Harness) (env : BuildEnv)
    (startError : option string) (ps : Procs) (btr : list Exec)
    (app' : option App) (berr : option Error) :
  ownsChildren h ps →
  Build fuel env [] = Some (btr, Returns (app', berr)) →
  let killed := match app h with Some a => [EvKill a] | None => [] end in
  let started :=
    EvStart {| BinaryPath := binName env; Port := port h; process := None |} in
  ∃ tr h' ps' err,
    Refresh fuel h env startError ps = Some (tr, Returns (h', ps', err))
    ∧ (∀ e, berr = Some e →
         tr = killed ++ [EvBuild btr] ∧ err = Some e
         ∧ app h' = None ∧ running ps' = ∅)
    ∧ (berr = None → ∀ msg, startError = Some msg →
         tr = killed ++ [EvBuild btr; started]
         ∧ (∃ e, err = Some e ∧ Title e = "App failed to start up"
                 ∧ Description e = msg)
         ∧ running ps' = ∅)
    ∧ (berr = None → startError = None →
         tr = killed ++ [EvBuild btr; started] ∧ err = None
         ∧ app h' = Some {| BinaryPath := binName env; Port := port h;
                            process := Some (nextPid ps) |}
         ∧ running ps' = {[nextPid ps]})
    ∧ ownsChildren h' ps'.
Proof.
  intros Hown HB killed started. unfold Refresh.
  pose proof (Kill_owned h ps Hown) as Hdead.
  assert (nextPid (match app h with Some a => Kill a ps | None => ps end)
          = nextPid ps) as Hnext
    by (destruct (app h); [apply Kill_nextPid | done]).
  replace (match app h with
           | Some a => ([EvKill a], Kill a ps)
           | None => ([], ps)
           end)
    with (killed, match app h with Some a => Kill a ps | None => ps end)
    by (unfold killed; by destruct (app h)).
  revert Hdead Hnext.
  generalize (match app h with Some a => Kill a ps | None => ps end).
  intros ps1 Hdead Hnext. rewrite HB.
  pose proof (Build_app_or_error fuel env [] btr app' berr HB) as Hres.
  destruct berr as [e|].
  - destruct Hres as [[_ [=]] | [-> _]].
    eexists _, _, _, _. split; [reflexivity |].
    split; [| split; [| split]]; [| done | done |].
    + by intros e' [= <-].
    + intros pid Hpid. rewrite Hdead in Hpid. by apply elem_of_empty in Hpid.
  - destruct Hres as [[-> _] | [_ [? [=]]]].
    unfold Start. destruct startError as [msg|].
    + eexists _, _, _, _. split; [reflexivity |].
      split; [done |]. split; [| split; [done |]].
      * intros _ msg' [= <-]. split; [done |]. split; [| done].
        eexists. by split.
      * intros pid Hpid. rewrite Hdead in Hpid. by apply elem_of_empty in Hpid.
    + eexists _, _, _, _. split; [reflexivity |].
      split; [done |]. split; [done |]. split.
      * intros _ _. simpl. rewrite Hnext, Hdead. repeat split.
        apply set_eq. intros pid. rewrite elem_of_union, !elem_of_singleton.
        split; [intros [? | ?%elem_of_empty]; done | by left].
      * intros pid Hpid. simpl in *. rewrite Hdead in Hpid.
        apply elem_of_union in Hpid as [->%elem_of_singleton | ?%elem_of_empty];
          [| done].
        eexists. split; [reflexivity | done].
Qed.

(** [Refresh] returns whenever [Build] does. *)
Lemma Refresh_returns fuel h env startError ps btr r :
  Build fuel env [] = Some (btr, Returns r) →
  ∃ tr res, Refresh fuel h env startError ps = Some (tr, Returns res).
Proof.
  intros HB. unfold Refresh. rewrite HB. destruct r as [app' err].
  destruct (Build_app_or_error _ _ _ _ _ _ HB) as [[-> ->] | [-> [e ->]]].
  - destruct (app h); unfold Start; destruct startError; by eexists _, _.
  - destruct (app h); by eexists _, _.
Qed.

Lemma servingHarness_owns : ownsChildren servingHarness servingProcs.
Proof.
  intros pid Hpid. simpl in Hpid. apply elem_of_singleton in Hpid as ->.
  eexists. split; reflexivity.
Qed.

(** A rebuild that fails on a compile error: the old child, process 7, is
    killed, the build's error is returned and nothing runs. *)
Lemma Refresh_kills_then_builds_witness :
  ∃ btr e tr h' ps',
    Build 1 brokenEnv [] = Some (btr, Returns (None, Some e))
    ∧ Refresh 1 servingHarness brokenEnv None servingProcs
      = Some (tr, Returns (h', ps', Some e))
    ∧ tr = [EvKill {| BinaryPath := binName quietEnv; Port := 9001;
                      process := Some 7 |}; EvBuild btr]
    ∧ Path e = "app/controllers/app.go" ∧ app h' = None ∧ running ps' = ∅.
Proof.
  destruct (Refresh_kills_then_builds 1 servingHarness brokenEnv None
              servingProcs _ _ _ servingHarness_owns eq_refl)
    as (tr & h' & ps' & err & HR & Herr & _).
  destruct (Herr _ eq_refl) as (Htr & -> & Happ & Hrun).
  eexists _, _, tr, h', ps'. split; [reflexivity |]. split; [exact HR |].
  split; [exact Htr |]. split; [reflexivity |]. split; [exact Happ | exact Hrun].
Defined.

(** A rebuild that succeeds: the old child 7 is killed before the build, the
    new child 8 runs the new binary. *)
Example Refresh_success :
  ∃ btr a,
    Refresh 1 servingHarness quietEnv None servingProcs
    = Some ([EvKill {| BinaryPath := binName quietEnv; Port := 9001;
                       process := Some 7 |};
             EvBuild btr; EvStart a],
            Returns ({| app := Some {| BinaryPath := binName quietEnv;
                                       Port := 9001; process := Some 8 |};
                        serverHost := "localhost:9001"; port := 9001 |},
                     {| running := {[8]} ∪ ({[7]} ∖ {[7]}); nextPid := 9 |},
                     None)).
Proof. eexists _, _. reflexivity. Qed.

(** ** The patterns of [newCompileError] *)

Section error_patterns.
Import Regexp.











End error_patterns.

(** ** Decimal numbers *)

Section decimal.
Import Regexp.






(** [Atoi] on a string of digits: no sign, no syntax error. *)
Lemma Atoi_digits (s : string) :
  s ≠ "" → allChars isDigit s = true →
  Atoi s = match digitsValue 0 s with
           | Some v => Z.min maxInt v
           | None => 0%Z
           end.
Proof.
  intros Hne Hall. destruct s as [|a s]; [done |]. simpl in Hall.
  apply andb_true_iff in Hall as [Ha _].
  destruct a as [[] [] [] [] [] [] [] []]; try discriminate Ha; reflexivity.
Qed.


End decimal.

(** ** [newCompileError] *)

(** The fields [newCompileError] takes from the submatches. *)
Lemma locatedCompileError_fields env errorMatch :
  Path (locatedCompileError env errorMatch) = Regexp.submatch errorMatch 1
  ∧ Line (locatedCompileError env errorMatch)
    = Atoi (Regexp.submatch errorMatch 2)
  ∧ Description (locatedCompileError env errorMatch)
    = Regexp.submatch errorMatch 4.
Proof.
  unfold locatedCompileError.
  destruct (negb (String.eqb (errorLink env) ""));
    by destruct (ReadLines env _).
Qed.






(** The same path without a column is taken apart by the second pattern. *)
Example newCompileError_drive_path :
  let out := diagnostic "C:\gopath\src\chat\app\controllers\app.go" "12" None
                        "undefined: x" +:+ newline in
  Regexp.FindSubmatch errorPattern out = None
  ∧ Path (newCompileError quietErrorEnv out)
    = "C:\gopath\src\chat\app\controllers\app.go"
  ∧ Line (newCompileError quietErrorEnv out) = 12%Z
  ∧ Description (newCompileError quietErrorEnv out) = "undefined: x".
Proof. repeat split; by vm_compute. Qed.

(** Output without a diagnostic line: the generic error. *)
Example newCompileError_generic :
  newCompileError quietErrorEnv "exit status 2" = genericCompileError.
Proof. by vm_compute. Qed.

(** The path class of the first pattern admits newlines: a line without a
    colon or a hash sign before the diagnostic becomes part of the path. *)
Example newCompileError_path_spans_lines :
  Path (newCompileError quietErrorEnv
          ("warning" +:+ newline +:+ "app.go:3: undefined: x"))
  = "warning" +:+ newline +:+ "app.go".
Proof. by vm_compute. Qed.

(** * Further properties *)

(** ** Alias resolution, function by function *)

(** Candidates that are all in use are no more than the table has entries. *)
Lemma aliasCandidates_used_bound (m : gmap string string) (n : string) (k : nat) :
  (∀ j, j < k → containsValue m (aliasCandidate n j) = true) → k ≤ size m.
Proof.
  intros Hused.
  assert (aliasCandidate n <$> seq 0 k ⊆+ (map_to_list m).*2) as Hsub.
  { apply NoDup_submseteq.
    - apply NoDup_fmap_2_strong; [| apply NoDup_seq].
      intros i j _ _. apply aliasCandidate_inj.
    - intros a (j & -> & Hj)%list_elem_of_fmap. apply elem_of_seq in Hj.
      destruct (proj1 (containsValue_true m _) (Hused j ltac:(lia))) as [p Hp].
      apply list_elem_of_fmap. exists (p, aliasCandidate n j).
      split; [done | by apply elem_of_map_to_list]. }
  apply submseteq_length in Hsub.
  by rewrite !length_fmap, length_seq, length_map_to_list in Hsub.
Qed.

(** X1. [makePackageAlias] returns an alias that no entry of the table has:
    the package name when it is free, otherwise the name followed by the
    least number whose candidate is free; the number of candidates it passes
    over is at most the number of entries of the table. *)
Theorem makePackageAlias_fresh_bounded (aliases : gmap string string)
    (pkgName : string) :
  containsValue aliases (makePackageAlias aliases pkgName) = false
  ∧ (containsValue aliases pkgName = false →
     makePackageAlias aliases pkgName = pkgName)
  ∧ ∃ k, k ≤ size aliases
         ∧ makePackageAlias aliases pkgName = aliasCandidate pkgName k
         ∧ ∀ j, j < k → containsValue aliases (aliasCandidate pkgName j) = true.
Proof.
  destruct (makePackageAlias_spec aliases pkgName) as (k & Hk & Hfree & Hused).
  split; [by rewrite Hk | split; [apply makePackageAlias_free |]].
  exists k. split; [by apply (aliasCandidates_used_bound aliases pkgName) | done].
Qed.

(** X2. [addAlias] never changes an alias that is there: an import path met
    again, under the same or another package name, keeps its first alias; a
    new path is added with a fresh alias and nothing else changes. *)
Theorem addAlias_first_wins (aliases : gmap string string)
    (importPath pkgName pkgName' : string) :
  addAlias (addAlias aliases importPath pkgName) importPath pkgName'
  = addAlias aliases importPath pkgName
  ∧ (∀ q a, aliases !! q = Some a →
            addAlias aliases importPath pkgName !! q = Some a)
  ∧ (∀ q, q ≠ importPath →
          addAlias aliases importPath pkgName !! q = aliases !! q)
  ∧ is_Some (addAlias aliases importPath pkgName !! importPath).
Proof.
  split; [| split; [| split]].
  - unfold addAlias at 1.
    destruct (addAlias aliases importPath pkgName !! importPath) eqn:H; [done |].
    exfalso. unfold addAlias in H. destruct (aliases !! importPath) eqn:Hp.
    + congruence.
    + by rewrite lookup_insert_eq in H.
  - intros q a. apply addAlias_lookup_old.
  - intros q Hq. unfold addAlias. destruct (aliases !! importPath); [done |].
    by rewrite lookup_insert_ne.
  - unfold addAlias. destruct (aliases !! importPath) eqn:Hp.
    + rewrite Hp. by eexists.
    + rewrite lookup_insert_eq. by eexists.
Qed.

(** The keys [addAliases] and [addInitImports] add. *)
Lemma addAliases_lookup_is_Some (m : gmap string string)
    (reqs : list (string * string)) (p : string) :
  is_Some (addAliases m reqs !! p) ↔ is_Some (m !! p) ∨ p ∈ reqs.*1.
Proof.
  revert m. induction reqs as [|[q n] reqs IH]; intros m.
  - simpl. split; [by left | intros [? | ?%elem_of_nil]; done].
  - simpl. rewrite IH, elem_of_cons.
    assert (is_Some (addAlias m q n !! p) ↔ is_Some (m !! p) ∨ p = q) as ->.
    { unfold addAlias. destruct (m !! q) eqn:Hq.
      - split; [by left | intros [? | ->]; [done | rewrite Hq; by eexists]].
      - rewrite lookup_insert. case_decide as Hd.
        + subst q. split; [by right | intros _; by eexists].
        + split; [by left | intros [? | ->]; done]. }
    tauto.
Qed.

Lemma addInitImports_lookup (m : gmap string string) (paths : list string)
    (p : string) :
  addInitImports m paths !! p =
    match m !! p with
    | Some a => Some a
    | None => if decide (p ∈ paths) then Some "_" else None
    end.
Proof.
  destruct (m !! p) as [a|] eqn:Hp.
  - by apply addInitImports_lookup_old.
  - case_decide as Hin; [by apply addInitImports_lookup_new |].
    revert m Hp. induction paths as [|q paths IH]; intros m Hp; [done |].
    apply not_elem_of_cons in Hin as [Hne Hin]. simpl. apply IH; [done |].
    destruct (m !! q); [done |]. by rewrite lookup_insert_ne.
Qed.

(** The import paths [calcImportAliases] asks an alias for. *)
Lemma elem_of_argRequests (args : list MethodArg) (p : string) :
  p ∈ (argRequests args).*1 ↔
  ∃ methArg, methArg ∈ args ∧ arg_ImportPath methArg = p ∧ p ≠ "".
Proof.
  unfold argRequests. rewrite list_elem_of_fmap. split.
  - intros [[q n] [-> Hin]]. apply list_elem_of_omap in Hin as (methArg & Hin & Hs).
    destruct (String.eqb_spec (arg_ImportPath methArg) ""); [done |].
    injection Hs as <- <-. by exists methArg.
  - intros (methArg & Hin & <- & Hne).
    exists (arg_ImportPath methArg, PkgName (arg_TypeExpr methArg)).
    split; [done |]. apply list_elem_of_omap. exists methArg. split; [done |].
    by destruct (String.eqb_spec (arg_ImportPath methArg) "").
Qed.

Lemma elem_of_specRequests (spec : TypeInfo) (p : string) :
  p ∈ (specRequests spec).*1 ↔
  p = ImportPath spec
  ∨ ∃ methSpec methArg, methSpec ∈ MethodSpecs spec ∧ methArg ∈ Args methSpec
                        ∧ arg_ImportPath methArg = p ∧ p ≠ "".
Proof.
  unfold specRequests. rewrite fmap_cons, elem_of_cons. simpl.
  apply or_iff_compat_l.
  induction (MethodSpecs spec) as [|ms mss IH].
  - simpl. split; [by intros ?%elem_of_nil | by intros (? & ? & ?%elem_of_nil & _)].
  - rewrite map_cons, concat_cons, fmap_app, elem_of_app, IH, elem_of_argRequests.
    split.
    + intros [(a & Ha & Hp) | (ms' & a & Hms & Ha)].
      * exists ms, a. split; [by left | done].
      * exists ms', a. split; [by right | done].
    + intros (ms' & a & [-> | Hms]%elem_of_cons & Ha).
      * left. by exists a.
      * right. by exists ms', a.
Qed.

Lemma elem_of_concat_specRequests (specs : list TypeInfo) (p : string) :
  p ∈ (concat (map specRequests specs)).*1 ↔
  ∃ spec, spec ∈ specs ∧ p ∈ (specRequests spec).*1.
Proof.
  induction specs as [|spec specs IH].
  - simpl. split; [by intros ?%elem_of_nil | by intros (? & ?%elem_of_nil & _)].
  - rewrite map_cons, concat_cons, fmap_app, elem_of_app, IH. split.
    + intros [H | (spec' & Hin & H)].
      * exists spec. split; [by left | done].
      * exists spec'. split; [by right | done].
    + intros (spec' & [-> | Hin]%elem_of_cons & H); [by left |].
      right. by exists spec'.
Qed.

Lemma elem_of_aliasRequests (src : SourceInfo) (p : string) :
  p ∈ (aliasRequests src).*1 ↔ typedImport src p.
Proof.
  unfold aliasRequests, typedImport.
  rewrite fmap_app, elem_of_app, !elem_of_concat_specRequests. split.
  - intros [(spec & Hin & H) | (spec & Hin & H)]; exists spec;
      (split; [apply elem_of_app; auto | by apply elem_of_specRequests]).
  - intros (spec & [Hin | Hin]%elem_of_app & H); [left | right]; exists spec;
      (split; [done | by apply elem_of_specRequests]).
Qed.

(** X3. The table of [calcImportAliases] has an entry for exactly the import
    paths the analyzer's output names: the packages of controllers and test
    suites, the packages of method arguments (an argument without import path
    is skipped), and the init imports. *)
Theorem calcImportAliases_keys (src : SourceInfo) (p : string) :
  is_Some (calcImportAliases src !! p) ↔
  typedImport src p ∨ p ∈ InitImportPaths src.
Proof.
  unfold calcImportAliases.
  rewrite addInitImports_lookup, <- elem_of_aliasRequests.
  pose proof (addAliases_lookup_is_Some ∅ (aliasRequests src) p) as Ht.
  rewrite <- typeAliases_requests, lookup_empty in Ht.
  destruct (typeAliases src !! p) as [a|] eqn:Hp.
  - split; [intros _; left | by eexists].
    destruct (proj1 Ht ltac:(by eexists)) as [[? ?] | ?]; done.
  - case_decide as Hin.
    + split; [by right | by eexists].
    + split; [by intros [? ?] |].
      intros [Hreq | ?]; [| done].
      destruct (proj2 Ht (or_intror Hreq)) as [? ?]. done.
Qed.

(** X4. Init imports only fill gaps: the typed imports keep the aliases the
    first loops gave them, and the table does not depend on the order or the
    repetitions of the init imports. *)
Theorem calcImportAliases_init_order (src src' : SourceInfo) :
  ControllerSpecs src = ControllerSpecs src' →
  TestSuites src = TestSuites src' →
  (∀ p, p ∈ InitImportPaths src ↔ p ∈ InitImportPaths src') →
  calcImportAliases src = calcImportAliases src'
  ∧ ∀ p a, typeAliases src !! p = Some a → calcImportAliases src' !! p = Some a.
Proof.
  intros Hc Ht Hi.
  assert (typeAliases src = typeAliases src') as Heq
    by (unfold typeAliases; by rewrite Hc, Ht).
  split.
  - apply map_eq. intros p. unfold calcImportAliases.
    rewrite !addInitImports_lookup, Heq.
    destruct (typeAliases src' !! p); [done |].
    repeat case_decide; try done; by destruct (Hi p); tauto.
  - intros p a Hp. unfold calcImportAliases.
    by rewrite addInitImports_lookup, <- Heq, Hp.
Qed.

Lemma calcImportAliases_init_order_witness :
  let init l := {| ControllerSpecs := ControllerSpecs blogSource;
                   TestSuites := []; InitImportPaths := l |} in
  calcImportAliases (init ["github.com/lib/pq"; "github.com/go-sql-driver/mysql"])
  = calcImportAliases (init ["github.com/go-sql-driver/mysql"; "github.com/lib/pq";
                             "github.com/go-sql-driver/mysql"]).
Proof.
  simpl.
  refine (proj1 (calcImportAliases_init_order _ _ eq_refl eq_refl _)).
  intros p. simpl. rewrite !elem_of_cons. tauto.
Defined.

(** The loop of [Build] generates no source. *)
Lemma buildLoop_no_GenSource fuel env buildFlags i gotten tr res :
  buildLoop fuel env buildFlags i gotten = Some (tr, res) →
  ∀ dir file m, GenSource dir file m ∉ tr.
Proof.
  revert i gotten tr. induction fuel as [|fuel IH]; intros i gotten tr; [done |].
  rewrite buildLoop_unfold.
  destruct (getAppVersion (vcsEnv env i));
    [| by intros [= <- <-] ? ? ? ?%elem_of_nil..]. cbv zeta.
  assert (∀ (l : list Exec), (∀ e, e ∈ l → ∀ d f m, e ≠ GenSource d f m) →
            ∀ d f m, GenSource d f m ∉ l) as Hno
    by (intros l Hl d f m Hin; by apply (Hl _ Hin d f m)).
  destruct (failed (goBuild env i)).
  2: { intros [= <- <-]. apply Hno. by intros e' ->%list_elem_of_singleton. }
  destruct (missingPackage (output (goBuild env i))) as [pkgName|].
  2: { intros [= <- <-]. apply Hno. by intros e' ->%list_elem_of_singleton. }
  destruct (decide (pkgName ∈ gotten)).
  { intros [= <- <-]. apply Hno. by intros e' ->%list_elem_of_singleton. }
  destruct (failed (goGet env i)).
  { intros [= <- <-]. apply Hno.
    by intros e' [-> | ->%list_elem_of_singleton]%elem_of_cons. }
  destruct (buildLoop fuel env buildFlags (S i) ({[pkgName]} ∪ gotten))
    as [[tr' res']|] eqn:Hloop; [| done].
  intros [= <- <-] d f m [? | [? | Hin]%elem_of_cons]%elem_of_cons; [done.. |].
  by apply (IH _ _ _ Hloop d f m).
Qed.

(** X5. The configured database driver ([db.import]) is imported by both
    generated sources, for its side effects only (alias ["_"]), unless a
    controller, a test suite or an argument type already imports that
    package; both sources are generated from the same table. *)
Theorem Build_db_import (fuel : nat) (env : BuildEnv) (buildFlags : list string)
    (sourceInfo : SourceInfo) (dbImportPath : string) (tr : list Exec)
    (res : outcome (option App * option Error)) :
  processSource env = inl sourceInfo → dbImport env = Some dbImportPath →
  genSourceOk env = true →
  Build fuel env buildFlags = Some (tr, res) →
  ∃ importPaths rest,
    tr = GenSource "tmp" "main.go" importPaths
           :: GenSource "routes" "routes.go" importPaths :: rest
    ∧ (∀ e, e ∈ rest → ∀ dir file m, e ≠ GenSource dir file m)
    ∧ importPaths !! dbImportPath
      = match typeAliases sourceInfo !! dbImportPath with
        | Some a => Some a
        | None => Some "_"
        end.
Proof.
  intros Hsrc Hdb Hgen. unfold Build. rewrite Hsrc, Hdb, Hgen. simpl.
  set (src' := {| ControllerSpecs := ControllerSpecs sourceInfo;
                  TestSuites := TestSuites sourceInfo;
                  InitImportPaths := InitImportPaths sourceInfo ++ [dbImportPath] |}).
  assert (calcImportAliases src' !! dbImportPath
          = match typeAliases sourceInfo !! dbImportPath with
            | Some a => Some a
            | None => Some "_"
            end) as Hlookup.
  { unfold calcImportAliases. rewrite addInitImports_lookup.
    change (typeAliases src') with (typeAliases sourceInfo).
    destruct (typeAliases sourceInfo !! dbImportPath); [done |].
    rewrite decide_True; [done |]. simpl. apply elem_of_app. right.
    by apply list_elem_of_singleton. }
  destruct (lookPathGo env).
  2: { intros [= <- <-]. eexists _, []. split; [done |].
       split; [by intros ? ?%elem_of_nil | done]. }
  destruct (importFound env); simpl.
  2: { intros [= <- <-]. eexists _, []. split; [done |].
       split; [by intros ? ?%elem_of_nil | done]. }
  destruct (buildLoop fuel env buildFlags 0 ∅) as [[tr' res']|] eqn:Hloop; [| done].
  intros [= <- <-]. eexists _, tr'. split; [done |]. split; [| done].
  intros e He dir file m ->.
  by apply (buildLoop_no_GenSource _ _ _ _ _ _ _ Hloop) in He.
Qed.

Lemma Build_db_import_witness :
  ∃ importPaths rest,
    Build 1 blogEnv []
    = Some (GenSource "tmp" "main.go" importPaths
              :: GenSource "routes" "routes.go" importPaths :: rest,
            Returns (Some (NewApp (binName blogEnv)), None))
    ∧ importPaths !! "github.com/lib/pq" = Some "_".
Proof.
  eexists _, _. split; [reflexivity |].
  destruct (Build_db_import 1 blogEnv [] blogSource "github.com/lib/pq" _ _
              eq_refl eq_refl eq_refl eq_refl)
    as (importPaths & rest & Htr & _ & Hdb).
  injection Htr as Hip _. rewrite <- Hip in Hdb. exact Hdb.
Defined.

(** ** What the patterns can match *)

Section pattern_inversion.
Import Regexp.

(** A literal that was stripped stood at the start of the text. *)
Lemma stripPrefix_inv l bol s bol' s' :
  stripPrefix l bol s = Some (bol', s') → s = l +:+ s' ∧ bol' = bolAfter bol l.
Proof.
  revert bol s. induction l as [|x l IH]; intros bol s; simpl.
  - by intros [= <- <-].
  - destruct s as [|a s]; [done |].
    destruct (Ascii.eqb_spec a x) as [->|]; [| done].
    intros [-> ->]%IH. done.
Qed.

(** Where a greedy repetition succeeds, it took a run of the class, long
    enough, and the rest of the pattern matched after it. *)
Lemma repGreedy_inv p min bol s c k res :
  repGreedy p min bol s c k = Some res →
  ∃ a s', s = a +:+ s' ∧ allChars p a = true ∧ min ≤ String.length a
          ∧ k (bolAfter bol a) s' c = Some res.
Proof.
  revert min bol. induction s as [|x s IH]; intros min bol; simpl.
  - destruct min; [| done]. intros Hk. by exists "", "".
  - assert (match min with 0 => k bol (String x s) c | S _ => None end = Some res →
            ∃ a s', String x s = a +:+ s' ∧ allChars p a = true
                    ∧ min ≤ String.length a ∧ k (bolAfter bol a) s' c = Some res)
      as Hstop.
    { destruct min; [| done]. intros Hk. by exists "", (String x s). }
    destruct (p x) eqn:Hx; [| done].
    destruct (repGreedy p (pred min) (isNewline x) s c k) as [res'|] eqn:Hrec;
      [| done].
    intros [= ->]. apply IH in Hrec as (a & s' & -> & Ha & Hmin & Hk).
    exists (String x a), s'. simpl. rewrite Hx. repeat split; [done | lia | done].
Qed.

(** The same for a lazy repetition. *)
Lemma repLazy_inv p min bol s c k res :
  repLazy p min bol s c k = Some res →
  ∃ a s', s = a +:+ s' ∧ allChars p a = true ∧ min ≤ String.length a
          ∧ k (bolAfter bol a) s' c = Some res.
Proof.
  revert min bol. induction s as [|x s IH]; intros min bol; simpl.
  - destruct min; [| done]. destruct (k bol "" c) eqn:Hk; [| done].
    intros [= ->]. by exists "", "".
  - assert ((if p x then repLazy p (pred min) (isNewline x) s c k else None)
            = Some res →
            ∃ a s', String x s = a +:+ s' ∧ allChars p a = true
                    ∧ min ≤ String.length a ∧ k (bolAfter bol a) s' c = Some res)
      as Hmore.
    { destruct (p x) eqn:Hx; [| done].
      intros (a & s' & -> & Ha & Hmin & Hk)%IH.
      exists (String x a), s'. simpl. rewrite Hx.
      repeat split; [done | lia | done]. }
    destruct min; [| done].
    destruct (k bol (String x s) c) eqn:Hk; [| done].
    intros [= ->]. by exists "", (String x s).
Qed.

(** A match that was found starts somewhere in the text. *)
Lemma findFrom_inv r bol s m :
  findFrom r bol s = Some m →
  ∃ pre s', s = pre +:+ s' ∧ matchHere r (bolAfter bol pre) s' = Some m.
Proof.
  revert bol. induction s as [|x s IH]; intros bol; simpl.
  - destruct (matchHere r bol "") eqn:H; [| done]. intros [= ->]. by exists "", "".
  - destruct (matchHere r bol (String x s)) eqn:H.
    + intros [= ->]. by exists "", (String x s).
    + intros (pre & s' & -> & Hm)%IH. by exists (String x pre), s'.
Qed.

(** Every match of the missing-package pattern is a report of a package with a
    non-empty name free of double quotes. *)
Lemma importErrorPattern_inv bol s m :
  matchHere importErrorPattern bol s = Some m →
  ∃ pkgName rest,
    s = cannotFind pkgName +:+ rest ∧ m = [Some (cannotFind pkgName); Some pkgName]
    ∧ pkgName ≠ "" ∧ allChars (noneOf [dquote]) pkgName = true.
Proof.
  unfold matchHere, importErrorPattern. cbn [exec numSubexp].
  destruct (stripPrefix _ bol s) as [[bol1 s1]|] eqn:H1; [| done].
  apply stripPrefix_inv in H1 as [-> _].
  intros (a & s2 & -> & Ha & Hmin & Hk)%repGreedy_inv.
  destruct (stripPrefix _ _ s2) as [[bol3 s3]|] eqn:H3; [| done].
  apply stripPrefix_inv in H3 as [-> _].
  injection Hk as <-. exists a, s3.
  assert (("cannot find package " +:+ String dquote "") +:+ a +:+ String dquote "" +:+ s3
          = cannotFind a +:+ s3) as Heq.
  { unfold cannotFind. rewrite !Str.app_assoc. simpl. by rewrite Str.app_assoc. }
  rewrite Heq. split; [done |]. split; [| split; [| done]].
  - rewrite consumed_app.
    match goal with |- context [consumed ?X s3] =>
      replace X with (cannotFind a +:+ s3)
        by (unfold cannotFind; simpl; by rewrite Str.app_assoc)
    end.
    by rewrite consumed_app.
  - intros ->. simpl in Hmin. lia.
Qed.

(** Every match of the first pattern starts a line and has the shape of a
    diagnostic. *)
Lemma errorPattern_inv bol s m :
  matchHere errorPattern bol s = Some m →
  bol = true
  ∧ ∃ path line col msg rest,
      s = diagnostic path line col msg +:+ rest
      ∧ m = [Some (diagnostic path line col msg); Some path; Some line;
             colCapture col; Some msg]
      ∧ path ≠ "" ∧ allChars (noneOf [":"; "#"]%char) path = true
      ∧ line ≠ "" ∧ allChars isDigit line = true
      ∧ (∀ c, col = Some c → c ≠ "" ∧ allChars isDigit c = true)
      ∧ allChars isDot msg = true ∧ atEol rest = true.
Proof.
  unfold matchHere, errorPattern. cbn [exec numSubexp].
  destruct bol; [| done]. intros H. split; [done |].
  apply repGreedy_inv in H as (path & s1 & -> & Hp & Hpl & H).
  cbn beta in H.
  destruct (stripPrefix ":" _ s1) as [[b1 s1']|] eqn:H1; [| done].
  apply stripPrefix_inv in H1 as [-> _].
  apply repGreedy_inv in H as (line & s2 & -> & Hl & Hll & H). cbn beta in H.
  destruct (stripPrefix ":" _ s2) as [[b2 s2']|] eqn:H2; [| done].
  apply stripPrefix_inv in H2 as [-> _].
  rewrite !consumed_app in H.
  assert (∀ s, 1 ≤ String.length s → s ≠ "") as Hne
    by (intros [|? ?] ? ?; [simpl in *; lia | done]).
  destruct (repGreedy isDigit 1 b2 s2' _ _) as [res|] eqn:Hopt.
  - injection H as ->.
    apply repGreedy_inv in Hopt as (c & s3 & -> & Hc & Hcl & Hk). cbn beta in Hk.
    destruct (stripPrefix ":" _ s3) as [[b3 s3']|] eqn:H3; [| done].
    apply stripPrefix_inv in H3 as [-> _].
    destruct (stripPrefix " " _ s3') as [[b4 s4]|] eqn:H4; [| done].
    apply stripPrefix_inv in H4 as [-> _].
    apply repGreedy_inv in Hk as (msg & rest & -> & Hm & _ & Hk). cbn beta in Hk.
    destruct (atEol rest) eqn:He; [| done]. injection Hk as <-.
    exists path, line, (Some c), msg, rest.
    assert (path +:+ ":" +:+ line +:+ ":" +:+ c +:+ ":" +:+ " " +:+ msg +:+ rest
            = diagnostic path line (Some c) msg +:+ rest) as Heq
      by (unfold diagnostic; by rewrite !Str.app_assoc).
    split; [exact Heq |]. simpl in Heq. rewrite Heq, !consumed_app.
    replace (c +:+ String ":" (String " " (msg +:+ rest)))
      with ((c +:+ ":") +:+ String " " (msg +:+ rest))
      by (by rewrite Str.app_assoc).
    rewrite consumed_app.
    repeat split; try done; try (by apply Hne);
      simplify_eq; try done; by apply Hne.
  - destruct (stripPrefix " " b2 s2') as [[b4 s4]|] eqn:H4; [| done].
    apply stripPrefix_inv in H4 as [-> _].
    apply repGreedy_inv in H as (msg & rest & -> & Hm & _ & Hk). cbn beta in Hk.
    destruct (atEol rest) eqn:He; [| done]. injection Hk as <-.
    exists path, line, None, msg, rest.
    assert (path +:+ ":" +:+ line +:+ ":" +:+ " " +:+ msg +:+ rest
            = diagnostic path line None msg +:+ rest) as Heq
      by (unfold diagnostic; by rewrite !Str.app_assoc).
    split; [exact Heq |]. simpl in Heq. rewrite Heq, !consumed_app.
    repeat split; try done; by apply Hne.
Qed.

(** Every match of the second pattern starts a line and has the shape
    path, colon, digits, colon, white space, message. *)
Lemma errorPatternFallback_inv bol s m :
  matchHere errorPatternFallback bol s = Some m →
  bol = true
  ∧ ∃ path line ws msg rest,
      s = path +:+ ":" +:+ line +:+ ":" +:+ String ws (msg +:+ rest)
      ∧ m = [Some (path +:+ ":" +:+ line +:+ ":" +:+ String ws msg);
             Some path; Some line; Some msg]
      ∧ allChars isDot path = true
      ∧ line ≠ "" ∧ allChars isDigit line = true ∧ isSpace ws = true
      ∧ allChars isDot msg = true ∧ atEol rest = true.
Proof.
  unfold matchHere, errorPatternFallback. cbn [exec numSubexp].
  destruct bol; [| done]. intros H. split; [done |].
  apply repLazy_inv in H as (path & s1 & -> & Hp & _ & H). cbn beta in H.
  destruct (stripPrefix ":" _ s1) as [[b1 s1']|] eqn:H1; [| done].
  apply stripPrefix_inv in H1 as [-> _].
  apply repGreedy_inv in H as (line & s2 & -> & Hl & Hll & H). cbn beta in H.
  destruct (stripPrefix ":" _ s2) as [[b2 s2']|] eqn:H2; [| done].
  apply stripPrefix_inv in H2 as [-> _].
  destruct s2' as [|ws s3]; [done |]. destruct (isSpace ws) eqn:Hws; [| done].
  apply repLazy_inv in H as (msg & rest & -> & Hm & _ & H). cbn beta in H.
  destruct (atEol rest) eqn:He; [| done]. injection H as <-.
  exists path, line, ws, msg, rest.
  split; [done |]. rewrite !consumed_app.
  assert (path +:+ ":" +:+ line +:+ ":" +:+ String ws (msg +:+ rest)
          = (path +:+ ":" +:+ line +:+ ":" +:+ String ws msg) +:+ rest) as Heq
    by (rewrite ?Str.app_assoc; simpl; by rewrite ?Str.app_assoc).
  change (path +:+ ":" +:+ line +:+ ":" +:+ String ws (msg +:+ rest))
    with (path +:+ String ":" (line +:+ String ":" (String ws (msg +:+ rest))))
    in Heq.
  rewrite Heq, consumed_app.
  repeat split; try done. intros ->. simpl in Hll. lia.
Qed.

(** Digits read as a number that is not negative. *)
Lemma digitsValue_nonneg s acc :
  (0 ≤ acc)%Z → allChars isDigit s = true →
  ∃ v, digitsValue acc s = Some v ∧ (0 ≤ v)%Z.
Proof.
  revert acc. induction s as [|a s IH]; intros acc Hacc; simpl.
  - intros _. by exists acc.
  - intros [Ha Hs]%andb_true_iff. rewrite Ha. apply IH; [| done].
    unfold isDigit in Ha. apply andb_true_iff in Ha as [H1%Nat.leb_le _]. lia.
Qed.

(** [Atoi] of a string of digits lies between 0 and the largest [int]. *)
Lemma Atoi_digits_bounds s :
  s ≠ "" → allChars isDigit s = true → (0 ≤ Atoi s ≤ maxInt)%Z.
Proof.
  intros Hne Hd. rewrite Atoi_digits by done.
  destruct (digitsValue_nonneg s 0 ltac:(lia) Hd) as (v & -> & Hv).
  unfold maxInt. lia.
Qed.

End pattern_inversion.

(** ** [newCompileError], for every output *)

Lemma locatedCompileError_constants env errorMatch :
  SourceType (locatedCompileError env errorMatch) = "Go code"
  ∧ Title (locatedCompileError env errorMatch) = "Go Compilation Error".
Proof.
  unfold locatedCompileError.
  destruct (negb (String.eqb (errorLink env) ""));
    by destruct (ReadLines env _).
Qed.

Lemma locatedCompileError_source env errorMatch :
  let e := locatedCompileError env errorMatch in
  match ReadLines env (filepathAbs env (Path e)) with
  | inl fileStr => SourceLines e = fileStr ∧ MetaError e = ""
  | inr err =>
      SourceLines e = []
      ∧ MetaError e = filepathAbs env (Path e) +:+ ": " +:+ err
  end.
Proof.
  intros e. subst e.
  rewrite (proj1 (locatedCompileError_fields env errorMatch)).
  unfold locatedCompileError.
  destruct (negb (String.eqb (errorLink env) ""));
    by destruct (ReadLines env _).
Qed.

(** The cases of [newCompileError]: the generic error, or an error located by
    one place of the output, a line start followed by path, colon, digits,
    colon, a separator and the message up to a line end. *)
Lemma newCompileError_cases (env : ErrorEnv) (out : string) :
  (Regexp.FindSubmatch errorPattern out = None
   ∧ Regexp.FindSubmatch errorPatternFallback out = None
   ∧ newCompileError env out = genericCompileError)
  ∨ ∃ errorMatch pre path line sep msg rest,
      newCompileError env out = locatedCompileError env errorMatch
      ∧ out = pre +:+ path +:+ ":" +:+ line +:+ ":" +:+ sep +:+ msg +:+ rest
      ∧ bolAfter true pre = true
      ∧ Regexp.submatch errorMatch 1 = path
      ∧ Regexp.submatch errorMatch 2 = line
      ∧ Regexp.submatch errorMatch 4 = msg
      ∧ line ≠ "" ∧ allChars Regexp.isDigit line = true
      ∧ allChars Regexp.isDot msg = true ∧ Regexp.atEol rest = true
      ∧ ((path ≠ "" ∧ allChars (Regexp.noneOf [":"; "#"]%char) path = true
          ∧ ∃ col, sep = columnSeparator col
                   ∧ ∀ c, col = Some c →
                          c ≠ "" ∧ allChars Regexp.isDigit c = true)
         ∨ (Regexp.FindSubmatch errorPattern out = None
            ∧ allChars Regexp.isDot path = true
            ∧ ∃ ws, sep = String ws "" ∧ Regexp.isSpace ws = true)).
Proof.
  unfold newCompileError.
  destruct (Regexp.FindSubmatch errorPattern out) as [m|] eqn:H1.
  - right. apply findFrom_inv in H1 as (pre & s & -> & H1).
    apply errorPattern_inv in H1
      as (Hbol & path & line & col & msg & rest & -> & -> & Hp1 & Hp2 & Hl1 & Hl2
          & Hcol & Hm & Hrest).
    eexists _, pre, path, line, (columnSeparator col), msg, rest.
    split; [done |]. split.
    { unfold diagnostic, columnSeparator. by rewrite !Str.app_assoc. }
    repeat split; try done. left. repeat split; try done. by exists col.
  - destruct (Regexp.FindSubmatch errorPatternFallback out) as [m|] eqn:H2;
      [| by left].
    right. apply findFrom_inv in H2 as (pre & s & -> & H2).
    apply errorPatternFallback_inv in H2
      as (Hbol & path & line & ws & msg & rest & -> & -> & Hp & Hl1 & Hl2 & Hws
          & Hm & Hrest).
    eexists _, pre, path, line, (String ws ""), msg, rest.
    split; [done |]. split.
    { rewrite ?Str.app_assoc. simpl. by rewrite ?Str.app_assoc. }
    repeat split; try done. right. repeat split; try done. by exists ws.
Qed.

(** X6. Whatever [newCompileError] reports was read at one place of the build
    output. Either neither pattern matches and the error is the generic one,
    or the output holds, at a line start, the reported path, a colon, the
    digits of the reported line, a colon, a separator, and the reported
    description, which is the rest of that line: it has no newline and a line
    end follows it. The separator is all that stands between the colon and
    the description: when the first pattern matched, one space, or a column
    (digits), a colon and one space, and the path is not empty and has no
    colon and no hash sign; when only the second pattern matched, one
    white-space character, and the path has no newline. *)
Theorem newCompileError_reads_output (env : ErrorEnv) (out : string) :
  (Regexp.FindSubmatch errorPattern out = None
   ∧ Regexp.FindSubmatch errorPatternFallback out = None
   ∧ newCompileError env out = genericCompileError)
  ∨ ∃ pre line sep rest,
      out = pre +:+ Path (newCompileError env out) +:+ ":" +:+ line +:+ ":"
              +:+ sep +:+ Description (newCompileError env out) +:+ rest
      ∧ bolAfter true pre = true ∧ Regexp.atEol rest = true
      ∧ allChars Regexp.isDot (Description (newCompileError env out)) = true
      ∧ line ≠ "" ∧ allChars Regexp.isDigit line = true
      ∧ Line (newCompileError env out) = Atoi line
      ∧ ((Path (newCompileError env out) ≠ ""
          ∧ allChars (Regexp.noneOf [":"; "#"]%char)
              (Path (newCompileError env out)) = true
          ∧ ∃ col, sep = columnSeparator col
                   ∧ ∀ c, col = Some c →
                          c ≠ "" ∧ allChars Regexp.isDigit c = true)
         ∨ (Regexp.FindSubmatch errorPattern out = None
            ∧ allChars Regexp.isDot (Path (newCompileError env out)) = true
            ∧ ∃ ws, sep = String ws "" ∧ Regexp.isSpace ws = true)).
Proof.
  destruct (newCompileError_cases env out)
    as [? | (m & pre & path & line & sep & msg & rest & -> & Hout & Hbol & H1 & H2
             & H4 & Hl1 & Hl2 & Hm & Hrest & Hpath)]; [by left |].
  right. destruct (locatedCompileError_fields env m) as (-> & -> & ->).
  rewrite H1, H2, H4. exists pre, line, sep, rest.
  repeat split; try done.
Qed.

(** X7. For every build output, the line number [newCompileError] reports is
    not negative and not above the largest [int]: a number too long for an
    [int] is cut down to that bound, and the generic error has line 0. *)
Theorem newCompileError_line_bounds (env : ErrorEnv) (out : string) :
  (0 ≤ Line (newCompileError env out) ≤ maxInt)%Z.
Proof.
  destruct (newCompileError_cases env out)
    as [(_ & _ & ->) | (m & pre & path & line & sep & msg & rest & -> & _ & _ & _
                        & H2 & _ & Hl1 & Hl2 & _)].
  - by vm_compute.
  - destruct (locatedCompileError_fields env m) as (_ & -> & _). rewrite H2.
    by apply Atoi_digits_bounds.
Qed.

(** X8. For every build output, the error [newCompileError] returns has the
    source type and the title of a Go compilation error, and its description
    is a single line: it holds no newline. *)
Theorem newCompileError_description_one_line (env : ErrorEnv) (out : string) :
  SourceType (newCompileError env out) = "Go code"
  ∧ Title (newCompileError env out) = "Go Compilation Error"
  ∧ allChars Regexp.isDot (Description (newCompileError env out)) = true.
Proof.
  destruct (newCompileError_cases env out)
    as [(_ & _ & ->) | (m & pre & path & line & sep & msg & rest & -> & _ & _ & _
                        & _ & H4 & _ & _ & Hm & _)].
  - by vm_compute.
  - destruct (locatedCompileError_constants env m) as [-> ->].
    destruct (locatedCompileError_fields env m) as (_ & _ & ->).
    by rewrite H4.
Qed.

(** X9. When [newCompileError] locates the error, it reads the file at the
    absolute form of the reported path: the lines read become the source
    lines of the error; if the file cannot be read, the error keeps path, line
    and description, has no source lines, and its meta error names the file
    and the reason. The generic error has neither. *)
Theorem newCompileError_source_lines (env : ErrorEnv) (out : string) :
  let e := newCompileError env out in
  (e = genericCompileError ∧ SourceLines e = [] ∧ MetaError e = "")
  ∨ match ReadLines env (filepathAbs env (Path e)) with
    | inl fileStr => SourceLines e = fileStr ∧ MetaError e = ""
    | inr err =>
        SourceLines e = []
        ∧ MetaError e = filepathAbs env (Path e) +:+ ": " +:+ err
    end.
Proof.
  intros e. unfold e.
  destruct (newCompileError_cases env out)
    as [(_ & _ & ->) | (m & pre & path & line & sep & msg & rest & -> & _)].
  - by left.
  - right. apply locatedCompileError_source.
Qed.

(** ** The missing-package pattern and the fetches of [Build] *)

Lemma missingPackage_inv (out pkgName : string) :
  missingPackage out = Some pkgName →
  pkgName ≠ "" ∧ allChars (Regexp.noneOf [dquote]) pkgName = true
  ∧ ∃ pre rest, out = pre +:+ cannotFind pkgName +:+ rest.
Proof.
  unfold missingPackage, Regexp.FindSubmatch.
  destruct (Regexp.findFrom importErrorPattern true out) as [m|] eqn:H; [| done].
  apply findFrom_inv in H as (pre & s & -> & H).
  apply importErrorPattern_inv in H as (pkg & rest & -> & -> & Hne & Hq).
  intros [= <-]. simpl. split; [done |]. split; [done |]. by exists pre, rest.
Qed.

(** X10. The package [Build] takes from a failed build's output stands in
    that output, between double quotes after the words "cannot find package";
    its name is not empty and holds no double quote. *)
Theorem missingPackage_sound (out pkgName : string) :
  missingPackage out = Some pkgName →
  pkgName ≠ "" ∧ allChars (Regexp.noneOf [dquote]) pkgName = true
  ∧ ∃ pre rest, out = pre +:+ cannotFind pkgName +:+ rest.
Proof. apply missingPackage_inv. Qed.

Lemma missingPackage_sound_witness :
  ∃ pre rest,
    "app/controllers/app.go:4:2: " +:+ cannotFind "github.com/lib/pq"
      +:+ " in any of:"
    = pre +:+ cannotFind "github.com/lib/pq" +:+ rest.
Proof.
  exact (proj2 (proj2 (missingPackage_sound
                         ("app/controllers/app.go:4:2: "
                            +:+ cannotFind "github.com/lib/pq" +:+ " in any of:")
                         "github.com/lib/pq" eq_refl))).
Defined.

Section build_trace.
Variables (env : BuildEnv) (buildFlags : list string).

(** What the loop of [Build] fetched was reported missing by a failed
    build. *)
Lemma buildLoop_fetched_reported fuel i gotten tr res pkgName :
  buildLoop fuel env buildFlags i gotten = Some (tr, res) →
  pkgName ∈ fetched tr →
  ∃ j, i ≤ j ∧ failed (goBuild env j) = true
       ∧ missingPackage (output (goBuild env j)) = Some pkgName.
Proof.
  revert i gotten tr. induction fuel as [|fuel IH]; intros i gotten tr; [done |].
  rewrite buildLoop_unfold.
  destruct (getAppVersion (vcsEnv env i));
    [| by intros [= <- <-] ?%elem_of_nil..]. cbv zeta.
  destruct (failed (goBuild env i)) eqn:Hfail;
    [| by intros [= <- <-] ?%elem_of_nil].
  destruct (missingPackage (output (goBuild env i))) as [pkg|] eqn:Hm;
    [| by intros [= <- <-] ?%elem_of_nil].
  destruct (decide (pkg ∈ gotten)); [by intros [= <- <-] ?%elem_of_nil |].
  destruct (failed (goGet env i)).
  { intros [= <- <-] ->%list_elem_of_singleton. by exists i. }
  destruct (buildLoop fuel env buildFlags (S i) ({[pkg]} ∪ gotten))
    as [[tr' res']|] eqn:Hloop; [| done].
  intros [= <- <-]. rewrite fetched_retry.
  intros [-> | Hin]%elem_of_cons; [by exists i |].
  destruct (IH _ _ _ Hloop Hin) as (j & Hj & H). exists j. split; [lia | done].
Qed.

(** The error of the loop is read from the output of a failed build. *)
Lemma buildLoop_error fuel i gotten tr app' e :
  buildLoop fuel env buildFlags i gotten = Some (tr, Returns (app', Some e)) →
  ∃ j, i ≤ j ∧ failed (goBuild env j) = true
       ∧ e = newCompileError (errorEnv env) (output (goBuild env j)).
Proof.
  revert i gotten tr. induction fuel as [|fuel IH]; intros i gotten tr; [done |].
  rewrite buildLoop_unfold.
  destruct (getAppVersion (vcsEnv env i)); [| done | done]. cbv zeta.
  destruct (failed (goBuild env i)) eqn:Hfail; [| done].
  destruct (missingPackage (output (goBuild env i))) as [pkg|];
    [| intros [= <- <- <-]; by exists i].
  destruct (decide (pkg ∈ gotten)); [intros [= <- <- <-]; by exists i |].
  destruct (failed (goGet env i)); [intros [= <- <- <-]; by exists i |].
  destruct (buildLoop fuel env buildFlags (S i) ({[pkg]} ∪ gotten))
    as [[tr' res']|] eqn:Hloop; [| done].
  intros [= <- ->]. destruct (IH _ _ _ Hloop) as (j & Hj & H).
  exists j. split; [lia | done].
Qed.

(** A loop that ends with an [App]: every turn but the last fetched what its
    failed build reported, the last build succeeded. *)
Lemma buildLoop_success fuel i gotten tr a :
  buildLoop fuel env buildFlags i gotten = Some (tr, Returns (Some a, None)) →
  builds tr = S (length (fetched tr))
  ∧ failed (goBuild env (i + length (fetched tr))) = false
  ∧ ∀ j, j < length (fetched tr) →
         failed (goBuild env (i + j)) = true
         ∧ failed (goGet env (i + j)) = false
         ∧ missingPackage (output (goBuild env (i + j))) = fetched tr !! j.
Proof.
  revert i gotten tr. induction fuel as [|fuel IH]; intros i gotten tr; [done |].
  rewrite buildLoop_unfold.
  destruct (getAppVersion (vcsEnv env i)); [| done | done]. cbv zeta.
  destruct (failed (goBuild env i)) eqn:Hfail.
  2: { intros [= <- <-]. simpl. rewrite Nat.add_0_r.
       split; [done |]. split; [done |]. intros j Hj. lia. }
  destruct (missingPackage (output (goBuild env i))) as [pkg|] eqn:Hm; [| done].
  destruct (decide (pkg ∈ gotten)); [done |].
  destruct (failed (goGet env i)) eqn:Hget; [done |].
  destruct (buildLoop fuel env buildFlags (S i) ({[pkg]} ∪ gotten))
    as [[tr' res']|] eqn:Hloop; [| done].
  intros [= <- ->]. destruct (IH _ _ _ Hloop) as (Hb & Hlast & Hturns).
  rewrite fetched_retry, builds_retry. simpl length.
  split; [by rewrite Hb |]. split.
  - by replace (i + S (length (fetched tr'))) with (S i + length (fetched tr'))
      by lia.
  - intros [|j] Hj.
    + rewrite Nat.add_0_r. by repeat split.
    + replace (i + S j) with (S i + j) by lia. apply Hturns. lia.
Qed.

(** [getAppVersion] does not end the process, so neither does the loop. *)
Lemma getAppVersion_not_Exits (vcs : VcsEnv) : getAppVersion vcs ≠ Exits.
Proof.
  unfold getAppVersion. destruct (negb _); [done |].
  destruct (lookPathGit vcs); [| done].
  destruct (statGitDir vcs) as [[|]|e]; simpl; [| done |].
  - by destruct (failed (gitDescribe vcs)).
  - by destruct (IsNotExist e).
Qed.

Lemma buildLoop_abnormal fuel i gotten tr :
  buildLoop fuel env buildFlags i gotten ≠ Some (tr, Exits)
  ∧ (buildLoop fuel env buildFlags i gotten = Some (tr, Panics) →
     ∃ j, i ≤ j ∧ getAppVersion (vcsEnv env j) = Panics).
Proof.
  revert i gotten tr. induction fuel as [|fuel IH]; intros i gotten tr; [done |].
  rewrite buildLoop_unfold.
  destruct (getAppVersion (vcsEnv env i)) eqn:Hv.
  - cbv zeta. destruct (failed (goBuild env i)); [| done].
    destruct (missingPackage (output (goBuild env i))) as [pkg|]; [| done].
    destruct (decide (pkg ∈ gotten)); [done |].
    destruct (failed (goGet env i)); [done |].
    destruct (buildLoop fuel env buildFlags (S i) ({[pkg]} ∪ gotten))
      as [[tr' res']|] eqn:Hloop; [| done].
    destruct (IH (S i) ({[pkg]} ∪ gotten) tr') as [Hne Hp]. split.
    + intros [= <- ->]. done.
    + intros [= <- ->]. destruct (Hp Hloop) as (j & Hj & H).
      exists j. split; [lia | done].
  - by destruct (getAppVersion_not_Exits (vcsEnv env i)).
  - split; [done |]. intros _. by exists i.
Qed.

End build_trace.

(** X11. [Build] runs [go get] only for a package that a failed build of the
    same attempt reported missing: the name stands in that build's output
    after "cannot find package", is not empty and holds no double quote. *)
Theorem Build_fetches_reported (fuel : nat) (env : BuildEnv)
    (buildFlags : list string) (tr : list Exec)
    (res : outcome (option App * option Error)) (pkgName : string) :
  Build fuel env buildFlags = Some (tr, res) →
  pkgName ∈ fetched tr →
  pkgName ≠ "" ∧ allChars (Regexp.noneOf [dquote]) pkgName = true
  ∧ ∃ i pre rest,
      failed (goBuild env i) = true
      ∧ output (goBuild env i) = pre +:+ cannotFind pkgName +:+ rest.
Proof.
  intros HB Hin.
  apply Build_inv in HB
    as [(e & _ & -> & _) | [(_ & Hf & _) | (gen & tr' & _ & Hf & _ & Hloop)]].
  - by apply elem_of_nil in Hin.
  - rewrite Hf in Hin. by apply elem_of_nil in Hin.
  - rewrite Hf in Hin.
    destruct (buildLoop_fetched_reported _ _ _ _ _ _ _ _ Hloop Hin)
      as (i & _ & Hfail & Hm).
    apply missingPackage_inv in Hm as (Hne & Hq & pre & rest & Hout).
    split; [done |]. split; [done |]. by exists i, pre, rest.
Qed.

Lemma Build_fetches_reported_witness :
  ∃ tr, Build 2 fetchOnceEnv [] = Some (tr, Returns (Some (NewApp (binName fetchOnceEnv)), None))
        ∧ fetched tr = ["github.com/lib/pq"]
        ∧ "github.com/lib/pq" ≠ "".
Proof.
  eexists. split; [reflexivity |]. split; [reflexivity |].
  refine (proj1 (Build_fetches_reported 2 fetchOnceEnv [] _ _ "github.com/lib/pq"
                   eq_refl _)).
  apply list_elem_of_singleton. reflexivity.
Defined.

(** X12. The error [Build] returns is the analyzer's error, or it is read by
    [newCompileError] from the output of a failed [go build]; the output of
    [go get] is never parsed, also when it is [go get] that failed. *)
Theorem Build_error_provenance (fuel : nat) (env : BuildEnv)
    (buildFlags : list string) (tr : list Exec) (app' : option App) (e : Error) :
  Build fuel env buildFlags = Some (tr, Returns (app', Some e)) →
  (processSource env = inr e ∧ tr = [])
  ∨ ∃ i, failed (goBuild env i) = true
         ∧ e = newCompileError (errorEnv env) (output (goBuild env i)).
Proof.
  intros HB.
  apply Build_inv in HB
    as [(e' & Hsrc & -> & [= _ <-]) | [[[=] _] | (gen & tr' & _ & _ & _ & Hloop)]].
  - by left.
  - right. apply buildLoop_error in Hloop as (i & _ & Hfail & ->). by exists i.
Qed.

Lemma Build_error_provenance_witness :
  ∃ tr e i,
    Build 1 brokenEnv [] = Some (tr, Returns (None, Some e))
    ∧ failed (goBuild brokenEnv i) = true
    ∧ e = newCompileError (errorEnv brokenEnv) (output (goBuild brokenEnv i)).
Proof.
  eexists _, _. 
  destruct (Build_error_provenance 1 brokenEnv [] _ None _ eq_refl)
    as [[[=] _] | (i & Hfail & He)].
  exists i. split; [reflexivity |]. split; [exact Hfail | exact He].
Defined.

(** X13. When [Build] returns an [App] after [k] fetches, it ran [k + 1]
    builds: the first [k] failed, each reported the package that was then
    fetched, and each fetch succeeded; the last build succeeded. *)
Theorem Build_success_shape (fuel : nat) (env : BuildEnv)
    (buildFlags : list string) (tr : list Exec) (a : App) :
  Build fuel env buildFlags = Some (tr, Returns (Some a, None)) →
  builds tr = S (length (fetched tr))
  ∧ failed (goBuild env (length (fetched tr))) = false
  ∧ ∀ j, j < length (fetched tr) →
         failed (goBuild env j) = true ∧ failed (goGet env j) = false
         ∧ missingPackage (output (goBuild env j)) = fetched tr !! j.
Proof.
  intros HB.
  apply Build_inv in HB
    as [(e & _ & _ & [=]) | [[[=] _] | (gen & tr' & _ & -> & -> & Hloop)]].
  by apply buildLoop_success in Hloop.
Qed.

Lemma Build_success_shape_witness :
  ∃ tr, Build 2 fetchOnceEnv []
        = Some (tr, Returns (Some (NewApp (binName fetchOnceEnv)), None))
        ∧ builds tr = 2 ∧ fetched tr = ["github.com/lib/pq"].
Proof.
  eexists. split; [reflexivity |]. split; [| reflexivity].
  exact (proj1 (Build_success_shape 2 fetchOnceEnv [] _ _ eq_refl)).
Defined.

(** X14. [Build] ends the process only before its loop, when the analysis
    succeeded and then the code generation failed, the [go] tool is not on the
    path or the import path of the application cannot be resolved; no command
    was run by then. [Build] panics only if [getAppVersion] does. *)
Theorem Build_abnormal_ends (fuel : nat) (env : BuildEnv)
    (buildFlags : list string) (tr : list Exec) :
  (Build fuel env buildFlags = Some (tr, Exits) →
   (∃ sourceInfo, processSource env = inl sourceInfo)
   ∧ (genSourceOk env = false ∨ lookPathGo env = None ∨ importFound env = false)
   ∧ fetched tr = [] ∧ builds tr = 0)
  ∧ (Build fuel env buildFlags = Some (tr, Panics) →
     ∃ i, getAppVersion (vcsEnv env i) = Panics).
Proof.
  unfold Build. destruct (processSource env) as [sourceInfo|e]; [| by split].
  destruct (genSourceOk env); simpl.
  2: { split; [| done]. intros [= <-]. split; [by eexists |]. split; [by left | done]. }
  destruct (lookPathGo env).
  2: { split; [| done]. intros [= <-]. split; [by eexists |].
       split; [right; by left | done]. }
  destruct (importFound env); simpl.
  2: { split; [| done]. intros [= <-]. split; [by eexists |].
       split; [right; by right | done]. }
  destruct (buildLoop fuel env buildFlags 0 ∅) as [[tr' res']|] eqn:Hloop;
    [| by split].
  destruct (buildLoop_abnormal env buildFlags fuel 0 ∅ tr') as [Hne Hp].
  split; intros [= <- ->]; [done |].
  destruct (Hp Hloop) as (i & _ & H). by exists i.
Qed.

(** X15. [getAppVersion] never ends the process, and it panics in exactly one
    situation: [APP_VERSION] is not set, [git] is installed, and examining the
    [.git] directory fails with an error other than "does not exist". *)
Theorem getAppVersion_panics_iff (env : VcsEnv) :
  getAppVersion env ≠ Exits
  ∧ (getAppVersion env = Panics ↔
     APP_VERSION env = "" ∧ is_Some (lookPathGit env)
     ∧ ∃ e, statGitDir env = StatError e ∧ IsNotExist e = false).
Proof.
  split; [apply getAppVersion_not_Exits |].
  destruct (decide (APP_VERSION env = "")) as [Hv|Hv].
  - rewrite getAppVersion_unset by done.
    destruct (lookPathGit env) as [gitPath|].
    + destruct (statGitDir env) as [[|]|e].
      * split; [by destruct (failed (gitDescribe env)) | by intros (_ & _ & ? & ? & _)].
      * split; [done | by intros (_ & _ & ? & ? & _)].
      * destruct (IsNotExist e) eqn:He.
        -- split; [done | intros (_ & _ & e' & [= <-] & ?); congruence].
        -- split; [intros _ | done]. split; [done |]. split; [by eexists |].
           by exists e.
    + split; [done | by intros (_ & [? ?] & _)].
  - rewrite getAppVersion_override by done. split; [done | by intros [? _]].
Qed.

(** ** The harness, over whole runs *)



(** ** The watcher's filters and the generated sources *)

Lemma Build_GenSource fuel env buildFlags tr res dir file m :
  Build fuel env buildFlags = Some (tr, res) → GenSource dir file m ∈ tr →
  (dir = "tmp" ∧ file = "main.go") ∨ (dir = "routes" ∧ file = "routes.go").
Proof.
  unfold Build. destruct (processSource env) as [sourceInfo|e].
  2: { by intros [= <- <-] ?%elem_of_nil. }
  destruct (genSourceOk env); simpl.
  2: { by intros [= <- <-] ?%elem_of_nil. }
  assert (∀ l : list Exec, (∀ d f a, GenSource d f a ∉ l) →
            ∀ a1 a2, GenSource dir file m
                       ∈ GenSource "tmp" "main.go" a1
                           :: GenSource "routes" "routes.go" a2 :: l →
            (dir = "tmp" ∧ file = "main.go")
            ∨ (dir = "routes" ∧ file = "routes.go")) as Hgen.
  { intros l Hl a1 a2 [[= -> -> _] | [[= -> -> _] | Hin]%elem_of_cons]%elem_of_cons;
      [by left | by right | by destruct (Hl _ _ _ Hin)]. }
  destruct (lookPathGo env).
  2: { intros [= <- <-]. apply Hgen. by intros ? ? ? ?%elem_of_nil. }
  destruct (importFound env); simpl.
  2: { intros [= <- <-]. apply Hgen. by intros ? ? ? ?%elem_of_nil. }
  destruct (buildLoop fuel env buildFlags 0 ∅) as [[tr' res']|] eqn:Hloop; [| done].
  intros [= <- <-]. apply Hgen. by apply (buildLoop_no_GenSource _ _ _ _ _ _ _ Hloop).
Qed.

(** X17. Every source [Build] generates is a [.go] file, which the watcher's
    file filter accepts, in a directory the watcher's directory filter skips:
    generating the sources does not by itself call for the next rebuild. *)
Theorem generated_sources_not_watched (fuel : nat) (env : BuildEnv)
    (buildFlags : list string) (tr : list Exec)
    (res : outcome (option App * option Error))
    (dir file : string) (m : gmap string string) :
  Build fuel env buildFlags = Some (tr, res) → GenSource dir file m ∈ tr →
  WatchDir dir = false ∧ WatchFile file = true.
Proof.
  intros HB Hin.
  by destruct (Build_GenSource _ _ _ _ _ _ _ _ HB Hin) as [[-> ->] | [-> ->]].
Qed.

Lemma generated_sources_not_watched_witness :
  WatchDir "tmp" = false ∧ WatchFile "main.go" = true.
Proof.
  refine (generated_sources_not_watched 1 quietEnv [] _ _ "tmp" "main.go" _
            eq_refl _).
  apply elem_of_cons. left. reflexivity.
Defined.

(** ** The WebSocket tunnel *)

Lemma elem_of_cons_ne {A} (x y : A) (l : list A) : x ≠ y → x ∈ y :: l → x ∈ l.
Proof. intros Hne [? | ?]%elem_of_cons; done. Qed.

(** X18. In [proxyWebsocket], once the client connection is hijacked the
    request is written to the backend; the two copy loops are started, both
    before the first result is awaited, exactly when that write succeeded;
    either way both connections are closed when the handler returns, the
    backend first, and no HTTP error is written. When the dial succeeded but
    the response writer is no hijacker (a 500 error is written) or hijacking
    fails (nothing is written), the handler returns at once and no connection
    is closed: the connection dialled to the backend stays open. When the
    dial fails, the handler writes the 500 error and nothing else. *)
Theorem proxyWebsocket_closes (env : TunnelEnv) (host : string) :
  (dialOk env = true → isHijacker env = true → hijackOk env = true →
   proxyWebsocket env host
   = [TnDial host; TnHijack; TnWriteRequest]
       ++ (if writeOk env
           then [TnCopy BackendConn ClientConn; TnCopy ClientConn BackendConn;
                 TnAwait]
           else [])
       ++ [TnClose BackendConn; TnClose ClientConn])
  ∧ (dialOk env = true → isHijacker env = false →
     proxyWebsocket env host = [TnDial host; TnHttpError "Not a hijacker?" 500])
  ∧ (dialOk env = true → isHijacker env = true → hijackOk env = false →
     proxyWebsocket env host = [TnDial host; TnHijack])
  ∧ (dialOk env = true → isHijacker env && hijackOk env = false →
     ∀ c, TnClose c ∉ proxyWebsocket env host)
  ∧ (dialOk env = false →
     proxyWebsocket env host
     = [TnDial host; TnHttpError "Error contacting backend server." 500]).
Proof.
  unfold proxyWebsocket. split; [| split; [| split; [| split]]].
  - intros -> -> ->. simpl. by destruct (writeOk env).
  - by intros -> ->.
  - by intros -> -> ->.
  - intros -> H c. simpl. destruct (isHijacker env); simpl in *.
    + rewrite H. simpl. intros Hin.
      do 2 (apply elem_of_cons_ne in Hin; [| done]). by apply elem_of_nil in Hin.
    + intros Hin.
      do 2 (apply elem_of_cons_ne in Hin; [| done]). by apply elem_of_nil in Hin.
  - by intros ->.
Qed.

(** ** The build commands of one attempt *)

Lemma buildLoop_commands fuel env buildFlags i gotten tr res :
  buildLoop fuel env buildFlags i gotten = Some (tr, res) →
  ∀ k flags, buildCommands tr !! k = Some flags →
    ∃ appVersion, getAppVersion (vcsEnv env (i + k)) = Returns appVersion
                  ∧ flags = buildArgs env buildFlags appVersion.
Proof.
  revert i gotten tr. induction fuel as [|fuel IH]; intros i gotten tr; [done |].
  rewrite buildLoop_unfold.
  destruct (getAppVersion (vcsEnv env i)) as [appVersion| |] eqn:Hv;
    [| by intros [= <- <-] ? ?..]. cbv zeta.
  assert (∀ k flags,
            [buildArgs env buildFlags appVersion] !! k = Some flags →
            ∃ v, getAppVersion (vcsEnv env (i + k)) = Returns v
                 ∧ flags = buildArgs env buildFlags v) as Hone.
  { intros [|k] flags; [| done]. intros [= <-]. exists appVersion.
    by rewrite Nat.add_0_r. }
  destruct (failed (goBuild env i)); [| by intros [= <- <-]].
  destruct (missingPackage (output (goBuild env i))) as [pkgName|];
    [| by intros [= <- <-]].
  destruct (decide (pkgName ∈ gotten)); [by intros [= <- <-] |].
  destruct (failed (goGet env i)); [by intros [= <- <-] |].
  destruct (buildLoop fuel env buildFlags (S i) ({[pkgName]} ∪ gotten))
    as [[tr' res']|] eqn:Hloop; [| done].
  intros [= <- <-] [|k] flags.
  - intros [= <-]. exists appVersion. by rewrite Nat.add_0_r.
  - intros Hk. rewrite Nat.add_succ_r. by apply (IH _ _ _ Hloop k flags).
Qed.

(** X19. In one call of [Build], the [k]-th run of [go build] gets the version
    [getAppVersion] computed in the [k]-th turn of the loop, and nothing else
    differs between the runs: the tags, the output binary, the caller's flags
    in their order and the main package are those of the first run, also after
    a missing package was fetched. *)
Theorem Build_commands (fuel : nat) (env : BuildEnv) (buildFlags : list string)
    (tr : list Exec) (res : outcome (option App * option Error))
    (k : nat) (flags : list string) :
  Build fuel env buildFlags = Some (tr, res) →
  buildCommands tr !! k = Some flags →
  ∃ appVersion,
    getAppVersion (vcsEnv env k) = Returns appVersion
    ∧ flags = ["build"; "-ldflags"; versionLinkerFlags env appVersion;
               "-tags"; buildTags env; "-o"; binName env]
                ++ buildFlags ++ [mainPath env].
Proof.
  unfold Build. destruct (processSource env) as [sourceInfo|e].
  2: { by intros [= <- <-]. }
  destruct (genSourceOk env); simpl.
  2: { by intros [= <- <-]. }
  destruct (lookPathGo env).
  2: { by intros [= <- <-]. }
  destruct (importFound env); simpl.
  2: { by intros [= <- <-]. }
  destruct (buildLoop fuel env buildFlags 0 ∅) as [[tr' res']|] eqn:Hloop; [| done].
  intros [= <- <-] Hk. exact (buildLoop_commands _ _ _ _ _ _ _ Hloop k flags Hk).
Qed.

Lemma Build_commands_witness :
  ∃ appVersion,
    getAppVersion (vcsEnv fetchOnceEnv 1) = Returns appVersion
    ∧ buildArgs fetchOnceEnv ["-v"] "1.0"
      = ["build"; "-ldflags"; versionLinkerFlags fetchOnceEnv appVersion;
         "-tags"; buildTags fetchOnceEnv; "-o"; binName fetchOnceEnv]
          ++ ["-v"] ++ [mainPath fetchOnceEnv].
Proof.
  exact (Build_commands 3 fetchOnceEnv ["-v"] _ _ 1 _ eq_refl eq_refl).
Defined.
